(** * TrackerEntry: per-endpoint announce state reduced to one tracker row

    A shallow embedding of [src/base/bittorrent/trackerentry.cpp]
    (qBittorrent).  The file follows the translation unit top to bottom:
    the Qt and libtorrent types the code is written against, the
    [Endpoint] view, the [TrackerEntry] accessors and reductions, equality
    and hashing; the properties come after all definitions.  The RSS
    folder of [src/base/rss/rss_folder.cpp] follows in [Module RSS]. *)

From Stdlib Require Import ZArith String Ascii List Lia Sorted.
From stdpp Require Import base decidable list numbers strings gmap.

Local Open Scope Z_scope.

(** ** Qt: the part of QString, QStringList, QUrl and qHash the code uses *)

Module Qt.

(** A [QString] is a sequence of UTF-16 code units. *)
Definition QChar := N.
Definition QString := list QChar.
Definition QStringList := list QString.

(** [QString::isEmpty()]: the string has no code unit. *)
Definition isEmpty (s : QString) : bool :=
  match s with [] => true | _ :: _ => false end.

(** [QStringList::isEmpty()] and [QStringList::contains(str)] (case
    sensitive, exact comparison of the code units). *)
Definition isEmptyList (l : QStringList) : bool :=
  match l with [] => true | _ :: _ => false end.

Definition contains (l : QStringList) (s : QString) : bool :=
  bool_decide (s ∈ l).

(** The functions whose bodies live in the Qt libraries.  The tracker
    code is embedded against this interface; [QUrl] stands for the parsed,
    normalised URL that [QUrl::operator==] compares. *)
Class Api := {
  fromStdString : string → QString;
  trimmed : QString → QString;
  QUrl : Type;
  QUrl_eq_dec : EqDecision QUrl;
  QUrl_ctor : QString → QUrl;
  qHash_QString : QString → Z → Z;
  qHash_int : Z → Z
}.

#[global] Existing Instance QUrl_eq_dec.

End Qt.

(** ** libtorrent: the announce records the wrapper reads *)

Module lt.

(** Modelled from the spec: [lt::announce_endpoint] is declared by
    libtorrent, outside this repository.  [is_working] is the value of
    [is_working()] (the spec's isFunctioning), [last_error_message] the
    value of [last_error.message()] (the spec's lastErrorText),
    [local_endpoint] the printed local address.  The counters are C++
    [int]s holding a count or the sentinel -1. *)
Record announce_endpoint := {
  message : string;
  last_error_message : string;
  local_endpoint : string;
  scrape_incomplete : Z;
  scrape_complete : Z;
  scrape_downloaded : Z;
  updating : bool;
  is_working : bool
}.

(** Modelled from the spec: [lt::announce_entry], declared by libtorrent.
    Its [tier] member is a [std::uint8_t]: an entry that libtorrent hands
    over has a tier from 0 to 255. *)
Record announce_entry := {
  url : string;
  tier : Z;
  verified : bool;
  endpoints : list announce_endpoint
}.

End lt.

(** ** namespace BitTorrent *)

Module BitTorrent.

(** [TrackerEntry::Status] *)
Inductive Status := NotContacted | Working | Updating | NotWorking.

#[global] Instance Status_eq_dec : EqDecision Status.
Proof. solve_decision. Defined.

Record Endpoint := { m_nativeEndpoint : lt.announce_endpoint }.

Record TrackerEntry := { m_nativeEntry : lt.announce_entry }.

(** *** TrackerEntry::Endpoint *)

Definition Endpoint_name (e : Endpoint) : string :=
  lt.local_endpoint (m_nativeEndpoint e).

Definition Endpoint_numSeeds (e : Endpoint) : Z :=
  lt.scrape_complete (m_nativeEndpoint e).

Definition Endpoint_numLeeches (e : Endpoint) : Z :=
  lt.scrape_incomplete (m_nativeEndpoint e).

Definition Endpoint_numDownloaded (e : Endpoint) : Z :=
  lt.scrape_downloaded (m_nativeEndpoint e).

Definition Endpoint_status (e : Endpoint) : Status :=
  if lt.updating (m_nativeEndpoint e) then Updating
  else if negb (lt.is_working (m_nativeEndpoint e)) then NotWorking
  else Working.

(** *** TrackerEntry: accessors *)

Definition nativeEntry (t : TrackerEntry) : lt.announce_entry :=
  m_nativeEntry t.

Definition tier (t : TrackerEntry) : Z := lt.tier (nativeEntry t).

(** [endpoints()] wraps every native endpoint, in order. *)
Definition endpoints (t : TrackerEntry) : list Endpoint :=
  map Build_Endpoint (lt.endpoints (m_nativeEntry t)).

(** [m_nativeEntry.tier = value]: the [int] is narrowed to the
    [std::uint8_t] member, which keeps its low eight bits. *)
Definition setTier (value : Z) (t : TrackerEntry) : TrackerEntry :=
  {| m_nativeEntry :=
       {| lt.url := lt.url (m_nativeEntry t);
          lt.tier := value mod 256;
          lt.verified := lt.verified (m_nativeEntry t);
          lt.endpoints := lt.endpoints (m_nativeEntry t) |} |}.

(** *** TrackerEntry::status

    The [for] loop either leaves the function with a status ([inl]) or
    runs to the end with its counter ([inr numFailed]).  [numFailed] is
    an [int] that is incremented at most once per element of a [QList],
    whose size is itself an [int]: the counter cannot wrap
    (see [status_loop_numFailed]). *)
Fixpoint status_loop (verified : bool) (endpointsList : list Endpoint)
    (numFailed : Z) : Status + Z :=
  match endpointsList with
  | [] => inr numFailed
  | endpoint :: rest =>
      let status := Endpoint_status endpoint in
      if bool_decide (status = Updating) then inl status
      else if bool_decide (status = NotWorking)
           then status_loop verified rest (numFailed + 1)
      else if negb verified then status_loop verified rest numFailed
      else if bool_decide (status = Working) then inl status
      else status_loop verified rest numFailed
  end.

Definition status (t : TrackerEntry) : Status :=
  let verified := lt.verified (nativeEntry t) in
  let endpointsList := endpoints t in
  match status_loop verified endpointsList 0 with
  | inl s => s
  | inr numFailed =>
      if bool_decide (numFailed = Z.of_nat (length endpointsList))
         && negb (bool_decide (numFailed = 0))
      then NotWorking
      else NotContacted
  end.

(** *** TrackerEntry::numSeeds, numLeeches, numDownloaded *)

Definition numSeeds (t : TrackerEntry) : Z :=
  fold_left (λ value endpoint, Z.max value (Endpoint_numSeeds endpoint))
            (endpoints t) (-1).

Definition numLeeches (t : TrackerEntry) : Z :=
  fold_left (λ value endpoint, Z.max value (Endpoint_numLeeches endpoint))
            (endpoints t) (-1).

Definition numDownloaded (t : TrackerEntry) : Z :=
  fold_left (λ value endpoint, Z.max value (Endpoint_numDownloaded endpoint))
            (endpoints t) (-1).

(** *** The members that go through Qt *)

Section WithQt.
Context `{Q : Qt.Api}.

Definition Endpoint_message (e : Endpoint) : Qt.QString :=
  if negb (bool_decide (lt.message (m_nativeEndpoint e) = EmptyString))
  then Qt.fromStdString (lt.message (m_nativeEndpoint e))
  else if negb (lt.is_working (m_nativeEndpoint e))
  then Qt.fromStdString (lt.last_error_message (m_nativeEndpoint e))
  else [].

Definition url (t : TrackerEntry) : Qt.QString :=
  Qt.fromStdString (lt.url (nativeEntry t)).

(** The lambda [addMessage] of [messages()], with the captured list
    passed in and handed back. *)
Definition addMessage (messages : Qt.QStringList) (msg : string)
    : Qt.QStringList :=
  let message := Qt.trimmed (Qt.fromStdString msg) in
  if negb (Qt.isEmpty message) && negb (Qt.contains messages message)
  then messages ++ [message]
  else messages.

Definition messages (t : TrackerEntry) : Qt.QStringList :=
  let endpoints := lt.endpoints (nativeEntry t) in
  let messages :=
    fold_left (λ messages endpoint, addMessage messages (lt.message endpoint))
              endpoints [] in
  if Qt.isEmptyList messages && bool_decide (status t = NotWorking)
  then fold_left (λ messages endpoint,
                    addMessage messages (lt.last_error_message endpoint))
                 endpoints messages
  else messages.

(** [operator==(const TrackerEntry &, const TrackerEntry &)] *)
Definition operator_eq (left right : TrackerEntry) : bool :=
  bool_decide (tier left = tier right)
  && bool_decide (Qt.QUrl_ctor (url left) = Qt.QUrl_ctor (url right)).

(** [qHash(const TrackerEntry &key, uint seed)] *)
Definition qHash (key : TrackerEntry) (seed : Z) : Z :=
  Z.lxor (Qt.qHash_QString (url key) seed) (Qt.qHash_int (tier key)).

End WithQt.

End BitTorrent.

(** ** A concrete Qt for running the code on examples

    The reductions above are stated for every implementation of
    [Qt.Api].  To evaluate them on concrete tracker rows, [Qt5] fixes one:
    it follows Qt 5 on 7-bit text, which is all the examples use. *)

Module Qt5.

(** A 7-bit literal as a [QString] (what [QLatin1String] denotes). *)
Definition latin1 (s : string) : Qt.QString :=
  map N_of_ascii (list_ascii_of_string s).

(** [QChar::isSpace()]: the C white space, NEL, NBSP and the Unicode
    separator categories Zs, Zl, Zp. *)
Definition isSpace (c : Qt.QChar) : bool :=
  ((c =? 32) || ((9 <=? c) && (c <=? 13))
   || (c =? 133) || (c =? 160) || (c =? 5760)
   || ((8192 <=? c) && (c <=? 8202))
   || (c =? 8232) || (c =? 8233) || (c =? 8239) || (c =? 8287)
   || (c =? 12288))%N.

Fixpoint dropSpaces (s : Qt.QString) : Qt.QString :=
  match s with
  | [] => []
  | c :: rest => if isSpace c then dropSpaces rest else s
  end.

(** [QString::trimmed()]: white space removed from both ends. *)
Definition trimmed (s : Qt.QString) : Qt.QString :=
  rev (dropSpaces (rev (dropSpaces s))).

(** [QUrl]: only the case folding of the scheme is modelled here (Qt
    stores the scheme in lower case); Qt identifies further spellings
    (host case, percent-encoding), never fewer. *)
Definition toLower (c : Qt.QChar) : Qt.QChar :=
  if ((65 <=? c) && (c <=? 90))%N then (c + 32)%N else c.

Definition isSchemeChar (c : Qt.QChar) : bool :=
  (((65 <=? c) && (c <=? 90)) || ((97 <=? c) && (c <=? 122))
   || ((48 <=? c) && (c <=? 57))
   || (c =? 43) || (c =? 45) || (c =? 46))%N.

(** Splits [scheme ":" rest]; [None] when no colon follows a run of
    scheme characters. *)
Fixpoint splitScheme (s : Qt.QString) : option (Qt.QString * Qt.QString) :=
  match s with
  | [] => None
  | c :: rest =>
      if (c =? 58)%N then Some ([], rest)
      else if isSchemeChar c
      then match splitScheme rest with
           | Some (scheme, tail) => Some (c :: scheme, tail)
           | None => None
           end
      else None
  end.

Definition QUrl_ctor (s : Qt.QString) : Qt.QString :=
  match splitScheme s with
  | Some (scheme, tail) => map toLower scheme ++ 58%N :: tail
  | None => s
  end.

(** [qHash(const QString &, uint seed)] of Qt 5 on its portable path
    (the one taken for the default seed 0): [h = 31 * h + ch] in
    [uint] arithmetic. *)
Definition uint (z : Z) : Z := z mod 2 ^ 32.

Definition qHash_QString (key : Qt.QString) (seed : Z) : Z :=
  fold_left (λ h ch, uint (31 * h + Z.of_N ch)) key (uint seed).

(** [qHash(int key, uint seed = 0)] is [uint(key) ^ seed], called here
    with the default seed. *)
Definition qHash_int (key : Z) : Z := Z.lxor (uint key) 0.

#[global] Instance api : Qt.Api := {|
  Qt.fromStdString := latin1;
  Qt.trimmed := trimmed;
  Qt.QUrl := Qt.QString;
  Qt.QUrl_eq_dec := _;
  Qt.QUrl_ctor := QUrl_ctor;
  Qt.qHash_QString := qHash_QString;
  Qt.qHash_int := qHash_int
|}.

End Qt5.

(** ** The wording of the specification, for comparison with the code *)

Module Spec.

(** Duplicates removed, the first occurrence kept, order preserved. *)
Fixpoint keep_first {A} `{EqDecision A} (l : list A) : list A :=
  match l with
  | [] => []
  | x :: rest => x :: filter (λ y, y ≠ x) (keep_first rest)
  end.

Section WithQt.
Context `{Q : Qt.Api}.

(** The trimmed text of one field of one endpoint. *)
Definition trimmed_field (field : lt.announce_endpoint → string)
    (e : lt.announce_endpoint) : Qt.QString :=
  Qt.trimmed (Qt.fromStdString (field e)).

(** "Collect, in endpoint order, each endpoint's non-empty [field],
    trimmed of surrounding whitespace, deduplicated by exact string
    match (first occurrence kept, order preserved)." *)
Definition collect (field : lt.announce_endpoint → string)
    (t : BitTorrent.TrackerEntry) : Qt.QStringList :=
  keep_first
    (filter (λ s, s ≠ [])
       (map (trimmed_field field)
          (lt.endpoints (BitTorrent.nativeEntry t)))).

End WithQt.

(** The spec's names for the two flags of an endpoint, and "failing":
    neither functioning nor negotiating. *)
Definition isNegotiating (e : BitTorrent.Endpoint) : bool :=
  lt.updating (BitTorrent.m_nativeEndpoint e).

Definition isFunctioning (e : BitTorrent.Endpoint) : bool :=
  lt.is_working (BitTorrent.m_nativeEndpoint e).

Definition isFailing (e : BitTorrent.Endpoint) : bool :=
  negb (isFunctioning e) && negb (isNegotiating e).

Definition verified (t : BitTorrent.TrackerEntry) : bool :=
  lt.verified (BitTorrent.nativeEntry t).

(** The largest counter, the sentinel -1 being below every count. *)
Definition max_counter (counters : list Z) : Z :=
  foldr Z.max (-1) counters.

(** [r] is that maximum: at least the sentinel and every counter, and
    one of them. *)
Definition is_max_counter (counters : list Z) (r : Z) : Prop :=
  -1 ≤ r ∧ (∀ c, c ∈ counters → c ≤ r) ∧ (r = -1 ∨ r ∈ counters).

End Spec.

(** ** Example rows *)

Module Examples.
Import BitTorrent.

Definition endpoint (msg err : string) (seeds : Z) (negotiating functioning : bool)
    : lt.announce_endpoint :=
  {| lt.message := msg; lt.last_error_message := err;
     lt.local_endpoint := "0.0.0.0:6881";
     lt.scrape_incomplete := -1; lt.scrape_complete := seeds;
     lt.scrape_downloaded := -1;
     lt.updating := negotiating; lt.is_working := functioning |}.

Definition negotiating := endpoint "" "" (-1) true false.
Definition refreshing := endpoint "" "" (-1) true true.
Definition functioning := endpoint "" "" (-1) false true.
Definition failing (err : string) := endpoint "" err (-1) false false.
Definition counting (seeds : Z) := endpoint "" "" seeds false true.

Definition entry (u : string) (tr : Z) (v : bool)
    (es : list lt.announce_endpoint) : TrackerEntry :=
  {| m_nativeEntry :=
       {| lt.url := u; lt.tier := tr; lt.verified := v; lt.endpoints := es |} |}.

Definition tracker := entry "http://a.example/announce" 0.

End Examples.

(** ** namespace RSS: Folder

    [src/base/rss/rss_folder.cpp].  A folder keeps the list of its child
    items and answers every query by asking each child in turn.  The
    children are [Item *]: their identity is the pointer, and what their
    virtual members return is given to the folder's functions as
    [Item_articles] and [Item_unreadCount]. *)

Module RSS.

(** The signals a folder emits itself. *)
Inductive Signal := unreadCountChanged | aboutToBeDestroyed.

(** [std::inplace_merge(first, middle, last, comp)] on the two ranges
    [first, middle) and [middle, last): the stable merge, which takes the
    next element of the second range exactly when [comp] puts it before
    the next element of the first.  The standard fixes this result only
    for ranges that are sorted by [comp]: on other ranges the library
    may return another order, and this function says nothing about it.
    Every property below that goes through it assumes sorted ranges. *)
Fixpoint inplace_merge {A} (comp : A → A → bool) (l1 : list A)
    : list A → list A :=
  fix merge_second (l2 : list A) : list A :=
    match l1, l2 with
    | [], _ => l2
    | _, [] => l1
    | a1 :: rest1, a2 :: rest2 =>
        if comp a2 a1 then a2 :: merge_second rest2
        else a1 :: inplace_merge comp rest1 l2
    end.

(** A C++ [int] (32 bits, two's complement): [z] wrapped into its range. *)
Definition to_int (z : Z) : Z := (z + 2 ^ 31) mod 2 ^ 32 - 2 ^ 31.

(** [QList::removeOne(value)]: the first occurrence is removed, if any. *)
Fixpoint removeOne {A} `{EqDecision A} (value : A) (l : list A) : list A :=
  match l with
  | [] => []
  | x :: rest => if decide (x = value) then rest else x :: removeOne value rest
  end.

Section Folder.
Context {Item : Type} `{EqDecision Item}.
Context {Article Date : Type}.
Context (Article_date : Article → Date).
Context (articleDateRecentThan : Article → Date → bool).
Context (Item_articles : Item → list Article).
Context (Item_unreadCount : Item → Z).

(** The path of the [Item] base class and the folder's own member. *)
Record Folder := { m_path : Qt.QString; m_items : list Item }.

Definition Folder_new (path : Qt.QString) : Folder :=
  {| m_path := path; m_items := [] |}.

Definition items (f : Folder) : list Item := m_items f.

(** The comparison handed to [std::inplace_merge] in [articles()]. *)
Definition recentThan (a1 a2 : Article) : bool :=
  articleDateRecentThan a1 (Article_date a2).

(** [Folder::articles()]: each child's articles are appended to [news]
    and merged with the [n] that were there. *)
Definition articles (f : Folder) : list Article :=
  fold_left
    (λ news item,
       let n := length news in
       let news := news ++ Item_articles item in
       inplace_merge recentThan (take n news) (drop n news))
    (items f) [].

(** [Folder::unreadCount()]: [count += item->unreadCount()] on an [int],
    with the wrap-around of the compiled code written out (the C++
    standard leaves signed overflow undefined). *)
Definition unreadCount (f : Folder) : Z :=
  fold_left (λ count item, to_int (count + Item_unreadCount item))
            (items f) 0.

(** [Folder::handleItemUnreadCountChanged()] and
    [Folder::handleItemAboutToBeDestroyed(item)]: the signals emitted. *)
Definition handleItemUnreadCountChanged (f : Folder) : list Signal :=
  [unreadCountChanged].

Definition handleItemAboutToBeDestroyed (f : Folder) (item : Item)
    : list Signal :=
  if bool_decide (Item_unreadCount item > 0) then [unreadCountChanged] else [].

(** [Folder::addItem(item)] and [Folder::removeItem(item)]: the new state
    and the signals emitted.  [Q_ASSERT] compiles to nothing in a release
    build; what it asserts is a hypothesis of the properties that need it.
    The [connect] and [disconnect] calls only route the child's later
    signals and leave the folder's members alone. *)
Definition addItem (item : Item) (f : Folder) : Folder * list Signal :=
  ({| m_path := m_path f; m_items := m_items f ++ [item] |},
   [unreadCountChanged]).

Definition removeItem (item : Item) (f : Folder) : Folder * list Signal :=
  ({| m_path := m_path f; m_items := removeOne item (m_items f) |},
   [unreadCountChanged]).

End Folder.

(** [Folder::toJsonValue(withData)].  A [QJsonObject] maps keys to
    values, one value per key; [QJsonObject::insert(key, value)] replaces
    the value of a key that is present and, for the undefined value,
    removes the key instead.  The object is returned as the [QJsonValue]
    that holds it. *)
Section FolderJson.
Context {Item QJsonValue : Type}.
Context (isUndefined : QJsonValue → bool).
Context (Item_name : Item → Qt.QString).
Context (Item_toJsonValue : Item → bool → QJsonValue).

Definition QJsonObject_insert (key : Qt.QString) (value : QJsonValue)
    (jsonObj : gmap Qt.QString QJsonValue) : gmap Qt.QString QJsonValue :=
  if isUndefined value then delete key jsonObj else <[key := value]> jsonObj.

Definition toJsonValue (withData : bool) (f : @Folder Item)
    : gmap Qt.QString QJsonValue :=
  fold_left
    (λ jsonObj item,
       QJsonObject_insert (Item_name item) (Item_toJsonValue item withData)
         jsonObj)
    (items f) ∅.

End FolderJson.

(** An item is a feed or a folder of items.  A feed is outside this file:
    it is represented by what its [articles()] and [unreadCount()]
    return. *)
#[local] Unset Elimination Schemes.

Inductive ItemTree (Article : Type) :=
| FeedItem (feedArticles : list Article) (feedUnread : Z)
| FolderItem (path : Qt.QString) (children : list (ItemTree Article)).

#[local] Set Elimination Schemes.

Arguments FeedItem {Article} _ _.
Arguments FolderItem {Article} _ _.

(** Induction over an item with the hypothesis for every child. *)
Fixpoint ItemTree_ind {Article} (P : ItemTree Article → Prop)
    (Hfeed : ∀ feedArticles feedUnread, P (FeedItem feedArticles feedUnread))
    (Hfolder : ∀ path children,
       Forall P children → P (FolderItem path children))
    (i : ItemTree Article) : P i :=
  match i with
  | FeedItem feedArticles feedUnread => Hfeed feedArticles feedUnread
  | FolderItem path children =>
      Hfolder path children
        ((fix all (l : list (ItemTree Article)) : Forall P l :=
            match l with
            | [] => List.Forall_nil P
            | x :: rest =>
                List.Forall_cons P x rest
                  (ItemTree_ind P Hfeed Hfolder x) (all rest)
            end) children)
  end.

Section Tree.
Context {Article Date : Type}.
Context (Article_date : Article → Date).
Context (articleDateRecentThan : Article → Date → bool).

(** The virtual [Item::articles()] and [Item::unreadCount()]. *)
Fixpoint Item_articles (i : ItemTree Article) : list Article :=
  match i with
  | FeedItem feedArticles _ => feedArticles
  | FolderItem path children =>
      articles Article_date articleDateRecentThan Item_articles
        {| m_path := path; m_items := children |}
  end.

Fixpoint Item_unreadCount (i : ItemTree Article) : Z :=
  match i with
  | FeedItem _ feedUnread => feedUnread
  | FolderItem path children =>
      unreadCount Item_unreadCount {| m_path := path; m_items := children |}
  end.

(** All feeds below an item, left to right. *)
Fixpoint feeds (i : ItemTree Article) : list (list Article * Z) :=
  match i with
  | FeedItem feedArticles feedUnread => [(feedArticles, feedUnread)]
  | FolderItem _ children => concat (map feeds children)
  end.

End Tree.

(** Example folders: the children are numbered, an article is its date. *)
Module Examples.

Definition recentThan (article date : Z) : bool := bool_decide (article > date).

Definition child_articles (item : nat) : list Z :=
  match item with
  | 0%nat => [90; 50; 10]
  | 1%nat => [70; 50]
  | _ => []
  end.

Definition child_unread (item : nat) : Z :=
  match item with 0%nat => 2 | 1%nat => 1 | _ => 0 end.

Definition folder (children : list nat) : @Folder nat :=
  {| m_path := []; m_items := children |}.

(** The JSON of a child is a number here; 0 stands for the undefined value. *)
Definition child_name (item : nat) : Qt.QString :=
  match item with 0%nat => [102%N] | 1%nat => [103%N] | _ => [102%N] end.

Definition child_json (item : nat) (withData : bool) : Z :=
  match item with 3%nat => 0 | _ => Z.of_nat item + 10 end.

Definition tree : ItemTree Z :=
  FolderItem []
    [FeedItem [90; 50; 10] 2;
     FolderItem [] [FeedItem [70; 50] 1; FolderItem [] []];
     FeedItem [80] 0].

End Examples.

End RSS.

(** * Properties *)

Import BitTorrent.

(** ** One endpoint *)

Lemma Endpoint_status_Updating e :
  Endpoint_status e = Updating ↔ Spec.isNegotiating e = true.
Proof.
  unfold Endpoint_status, Spec.isNegotiating.
  destruct (lt.updating (m_nativeEndpoint e)), (lt.is_working (m_nativeEndpoint e)); simpl; split; congruence.
Qed.

Lemma Endpoint_status_NotWorking e :
  Endpoint_status e = NotWorking ↔ Spec.isFailing e = true.
Proof.
  unfold Endpoint_status, Spec.isFailing, Spec.isNegotiating, Spec.isFunctioning.
  destruct (lt.updating (m_nativeEndpoint e)), (lt.is_working (m_nativeEndpoint e)); simpl; split; congruence.
Qed.

Lemma Endpoint_status_Working e :
  Endpoint_status e = Working
  ↔ Spec.isNegotiating e = false ∧ Spec.isFunctioning e = true.
Proof.
  unfold Endpoint_status, Spec.isNegotiating, Spec.isFunctioning.
  destruct (lt.updating (m_nativeEndpoint e)), (lt.is_working (m_nativeEndpoint e)); simpl; intuition congruence.
Qed.

Lemma Endpoint_status_contacted e : Endpoint_status e ≠ NotContacted.
Proof.
  unfold Endpoint_status.
  destruct (lt.updating (m_nativeEndpoint e)), (lt.is_working (m_nativeEndpoint e)); simpl; congruence.
Qed.

(** ** The scan of [status()] *)

(** One step of the loop, by the status of the endpoint at hand. *)
Lemma status_loop_cons v e rest n :
  status_loop v (e :: rest) n =
    match Endpoint_status e with
    | Updating => inl Updating
    | NotWorking => status_loop v rest (n + 1)
    | Working => if v then inl Working else status_loop v rest n
    | NotContacted => status_loop v rest n
    end.
Proof.
  simpl. destruct (Endpoint_status e), v; reflexivity.
Qed.

Ltac loop_step e :=
  rewrite status_loop_cons;
  let E := fresh "E" in
  destruct (Endpoint_status e) eqn:E;
  [ exfalso; exact (Endpoint_status_contacted e E) | | | ].

(** The counter grows by at most one per endpoint: it never exceeds the
    size of the list, so the C++ [int] holds it. *)
Lemma status_loop_numFailed v l : ∀ n m,
  status_loop v l n = inr m → n ≤ m ≤ n + Z.of_nat (length l).
Proof.
  induction l as [|e rest IH]; intros n m H.
  - simpl in H. injection H as <-. simpl. lia.
  - revert H. loop_step e; cbn [length]; intros H; try discriminate.
    + destruct v; [discriminate|]. apply IH in H. lia.
    + apply IH in H. lia.
Qed.

(** Leaving the loop early gives [Updating], or [Working] on a verified
    tracker. *)
Lemma status_loop_early v l : ∀ n s,
  status_loop v l n = inl s → s = Updating ∨ (s = Working ∧ v = true).
Proof.
  induction l as [|e rest IH]; intros n s H; [discriminate|].
  revert H. loop_step e; intros H.
  - destruct v; [injection H as <-; auto | eauto].
  - injection H as <-; auto.
  - eauto.
Qed.

(** The endpoint that made the loop leave. *)
Lemma status_loop_early_elem v l : ∀ n s,
  status_loop v l n = inl s → ∃ e, e ∈ l ∧ Endpoint_status e = s.
Proof.
  induction l as [|e rest IH]; intros n s H; [discriminate|].
  revert H. loop_step e; intros H.
  - destruct v.
    + injection H as <-. exists e. split; [left | done].
    + destruct (IH _ _ H) as (e' & ? & ?). exists e'. split; [by right | done].
  - injection H as <-. exists e. split; [left | done].
  - destruct (IH _ _ H) as (e' & ? & ?). exists e'. split; [by right | done].
Qed.

(** A negotiating endpoint always makes the loop leave early. *)
Lemma status_loop_negotiating v l : ∀ n e,
  e ∈ l → Spec.isNegotiating e = true → ∃ s, status_loop v l n = inl s.
Proof.
  induction l as [|x rest IH]; intros n e Hin Hneg.
  - by apply elem_of_nil in Hin.
  - apply elem_of_cons in Hin as [<- | Hin].
    + rewrite status_loop_cons.
      apply Endpoint_status_Updating in Hneg. rewrite Hneg. eauto.
    + loop_step x; eauto. destruct v; eauto.
Qed.

(** On a verified tracker a settled, functioning endpoint does too. *)
Lemma status_loop_functioning l : ∀ n e,
  e ∈ l → Endpoint_status e = Working → ∃ s, status_loop true l n = inl s.
Proof.
  induction l as [|x rest IH]; intros n e Hin Hw.
  - by apply elem_of_nil in Hin.
  - apply elem_of_cons in Hin as [<- | Hin].
    + rewrite status_loop_cons, Hw. eauto.
    + loop_step x; eauto.
Qed.

(** Only failing endpoints: the loop counts them all. *)
Lemma status_loop_all_failing v l : ∀ n,
  Forall (λ e, Spec.isFailing e = true) l →
  status_loop v l n = inr (n + Z.of_nat (length l)).
Proof.
  induction l as [|e rest IH]; intros n Hall.
  - simpl. f_equal. lia.
  - apply Forall_cons in Hall as [He Hall].
    apply Endpoint_status_NotWorking in He.
    rewrite status_loop_cons, He, IH by done.
    f_equal. cbn [length]. lia.
Qed.

(** The counter reaches the size of the list only if all of them failed. *)
Lemma status_loop_counted_all v l : ∀ n,
  status_loop v l n = inr (n + Z.of_nat (length l)) →
  Forall (λ e, Spec.isFailing e = true) l.
Proof.
  induction l as [|e rest IH]; intros n H; [constructor|].
  revert H. loop_step e; cbn [length]; intros H; try discriminate.
  - destruct v; [discriminate|].
    apply status_loop_numFailed in H. lia.
  - constructor; [by apply Endpoint_status_NotWorking|].
    apply (IH (n + 1)). rewrite H. f_equal. lia.
Qed.

(** Without the early exits the loop reaches the end. *)
Lemma status_loop_end v l : ∀ n,
  Forall (λ e, Spec.isNegotiating e = false) l →
  (v = true → Forall (λ e, Spec.isFunctioning e = false) l) →
  ∃ m, status_loop v l n = inr m.
Proof.
  induction l as [|e rest IH]; intros n Hneg Hfun; [simpl; eauto|].
  apply Forall_cons in Hneg as [He Hneg].
  assert (v = true → Forall (λ e, Spec.isFunctioning e = false) rest) as Hrest.
  { intros Hv. specialize (Hfun Hv). by apply Forall_cons in Hfun as [_ ?]. }
  loop_step e.
  - destruct v; [|by apply IH].
    apply Endpoint_status_Working in E as [_ E].
    specialize (Hfun eq_refl). apply Forall_cons in Hfun as [Hf _]. congruence.
  - apply Endpoint_status_Updating in E. congruence.
  - by apply IH.
Qed.


(** ** status() *)




(** C3: a verified tracker with a functioning endpoint and none
    negotiating is [Working]; an unverified tracker is never [Working];
    and [Working] is reported only for a verified tracker that has an
    endpoint which is functioning and not negotiating. *)
Theorem status_working_needs_verified t :
  (Spec.verified t = true →
   (∃ e, e ∈ endpoints t ∧ Spec.isFunctioning e = true) →
   (∀ e, e ∈ endpoints t → Spec.isNegotiating e = false) →
   status t = Working)
  ∧ (Spec.verified t = false → status t ≠ Working)
  ∧ (status t = Working →
     Spec.verified t = true
     ∧ ∃ e, e ∈ endpoints t
            ∧ Spec.isFunctioning e = true ∧ Spec.isNegotiating e = false).
Proof.
  assert (status t = Working →
     Spec.verified t = true
     ∧ ∃ e, e ∈ endpoints t
            ∧ Spec.isFunctioning e = true ∧ Spec.isNegotiating e = false)
    as Hnecessary.
  { unfold status. change (lt.verified (nativeEntry t)) with (Spec.verified t).
    cbv zeta.
    destruct (status_loop _ (endpoints t) 0) as [s|m] eqn:Hs.
    - intros ->.
      destruct (status_loop_early _ _ _ _ Hs) as [? | [_ Hv]]; [discriminate|].
      split; [exact Hv|].
      destruct (status_loop_early_elem _ _ _ _ Hs) as (e & He & Ee).
      apply Endpoint_status_Working in Ee as [En Ef]. eauto.
    - by destruct (_ && _). }
  refine ((λ H, conj (proj1 H) (conj (proj2 H) Hnecessary)) _).
  unfold status. change (lt.verified (nativeEntry t)) with (Spec.verified t).
  cbv zeta. split.
  - intros Hv (e & Hin & Hfun) Hneg. rewrite Hv.
    destruct (status_loop_functioning (endpoints t) 0 e Hin) as [s Hs].
    { apply Endpoint_status_Working. split; [by apply Hneg | done]. }
    rewrite Hs.
    destruct (status_loop_early _ _ _ _ Hs) as [-> | [-> _]]; [|done].
    destruct (status_loop_early_elem _ _ _ _ Hs) as (x & Hx & Ex).
    apply Endpoint_status_Updating in Ex. rewrite (Hneg x Hx) in Ex. discriminate.
  - intros Hv. rewrite Hv.
    destruct (status_loop false (endpoints t) 0) as [s|m] eqn:Hs.
    + destruct (status_loop_early _ _ _ _ Hs) as [-> | [_ ?]]; congruence.
    + by destruct (_ && _).
Qed.

Lemma status_working_needs_verified_witness :
  let t := Examples.tracker true [Examples.failing "timeout"; Examples.functioning] in
  let u := Examples.tracker false [Examples.functioning] in
  status t = Working ∧ status u ≠ Working.
Proof.
  split.
  - apply status_working_needs_verified.
    + reflexivity.
    + exists (Build_Endpoint Examples.functioning). split; [|reflexivity].
      right. left.
    + intros e He. cbn in He.
      repeat (apply elem_of_cons in He as [-> | He]; [reflexivity|]).
      by apply elem_of_nil in He.
  - apply status_working_needs_verified. reflexivity.
Defined.

(** C4: [status()] is [NotWorking] exactly when there is an endpoint and
    every endpoint is neither functioning nor negotiating. *)
Theorem status_notworking_unanimous t :
  status t = NotWorking
  ↔ endpoints t ≠ []
    ∧ ∀ e, e ∈ endpoints t →
           Spec.isFunctioning e = false ∧ Spec.isNegotiating e = false.
Proof.
  assert (∀ e, Spec.isFailing e = true
               ↔ Spec.isFunctioning e = false ∧ Spec.isNegotiating e = false)
    as Hfail.
  { intros e. unfold Spec.isFailing.
    destruct (Spec.isFunctioning e), (Spec.isNegotiating e); simpl;
      intuition congruence. }
  unfold status. cbv zeta. split.
  - destruct (status_loop _ (endpoints t) 0) as [s|m] eqn:Hs.
    + intros ->. destruct (status_loop_early _ _ _ _ Hs) as [? | [? _]]; discriminate.
    + destruct (bool_decide (m = _)) eqn:Hm; [|discriminate].
      destruct (bool_decide (m = 0)) eqn:H0; [discriminate|]. intros _.
      apply bool_decide_eq_true in Hm. apply bool_decide_eq_false in H0.
      split.
      * intros Hnil. rewrite Hnil in Hm. cbn [length] in Hm. lia.
      * intros e He. apply Hfail. revert e He. apply Forall_forall.
        apply (status_loop_counted_all (lt.verified (nativeEntry t)) _ 0).
        rewrite Hs, Hm. done.
  - intros [Hne Hall].
    rewrite (status_loop_all_failing _ _ 0).
    + rewrite bool_decide_eq_true_2 by lia.
      rewrite bool_decide_eq_false_2; [done|].
      destruct (endpoints t); [done | cbn [length]; lia].
    + apply Forall_forall. intros e He. by apply Hfail, Hall.
Qed.

Lemma status_notworking_unanimous_witness :
  let t := Examples.tracker true [Examples.failing "timeout"; Examples.failing "refused"] in
  status t = NotWorking
  ∧ ∀ e, e ∈ endpoints t →
         Spec.isFunctioning e = false ∧ Spec.isNegotiating e = false.
Proof.
  split; [reflexivity|].
  apply (proj1 (status_notworking_unanimous _)). reflexivity.
Defined.

(** C5, as the code has it: [status()] is [NotContacted] exactly when
    there is no endpoint, or when none is negotiating, there is no verified
    functioning endpoint and not all are failing; an unverified tracker
    whose endpoints all function is [NotContacted] provided none of them is
    negotiating. *)
Theorem status_notcontacted_fallback t :
  (status t = NotContacted
   ↔ endpoints t = []
     ∨ ((∀ e, e ∈ endpoints t → Spec.isNegotiating e = false)
        ∧ ¬ (Spec.verified t = true
             ∧ ∃ e, e ∈ endpoints t ∧ Spec.isFunctioning e = true)
        ∧ ¬ (∀ e, e ∈ endpoints t → Spec.isFailing e = true)))
  ∧ (Spec.verified t = false →
     (∀ e, e ∈ endpoints t → Spec.isFunctioning e = true) →
     (∀ e, e ∈ endpoints t → Spec.isNegotiating e = false) →
     status t = NotContacted).
Proof.
  assert (status t = NotContacted
   ↔ endpoints t = []
     ∨ ((∀ e, e ∈ endpoints t → Spec.isNegotiating e = false)
        ∧ ¬ (Spec.verified t = true
             ∧ ∃ e, e ∈ endpoints t ∧ Spec.isFunctioning e = true)
        ∧ ¬ (∀ e, e ∈ endpoints t → Spec.isFailing e = true))) as Hiff.
  { unfold status. change (lt.verified (nativeEntry t)) with (Spec.verified t).
    cbv zeta. split.
    - destruct (status_loop _ (endpoints t) 0) as [s|m] eqn:Hs.
      { intros ->. destruct (status_loop_early _ _ _ _ Hs) as [? | [? _]]; discriminate. }
      intros Hc. destruct (endpoints t) as [|e0 rest] eqn:Hl; [by left | right].
      assert (∀ e, e ∈ e0 :: rest → Spec.isNegotiating e = false) as Hneg.
      { intros e He. destruct (Spec.isNegotiating e) eqn:Hn; [|done].
        destruct (status_loop_negotiating (Spec.verified t) _ 0 e He Hn) as [s Hs'].
        congruence. }
      split; [exact Hneg | split].
      + intros (Hv & e & He & Hf). rewrite Hv in Hs.
        destruct (status_loop_functioning _ 0 e He) as [s Hs']; [|congruence].
        apply Endpoint_status_Working. split; [by apply Hneg | done].
      + intros Hall. apply Forall_forall in Hall.
        rewrite (status_loop_all_failing _ _ 0 Hall) in Hs. injection Hs as <-.
        cbn [length] in Hc.
        rewrite bool_decide_eq_true_2 in Hc by lia.
        rewrite bool_decide_eq_false_2 in Hc by lia.
        discriminate.
    - intros [Hnil | (Hneg & Hnov & Hnall)].
      { rewrite Hnil. reflexivity. }
      destruct (status_loop_end (Spec.verified t) (endpoints t) 0) as [m Hs].
      { by apply Forall_forall. }
      { intros Hv. apply Forall_forall. intros e He.
        destruct (Spec.isFunctioning e) eqn:Hf; [|done].
        exfalso. apply Hnov. eauto. }
      rewrite Hs.
      destruct (bool_decide (m = _)) eqn:Hm; [|done].
      apply bool_decide_eq_true in Hm. exfalso. apply Hnall.
      apply Forall_forall.
      apply (status_loop_counted_all (Spec.verified t) _ 0). by rewrite Hs, Hm. }
  split; [exact Hiff|].
  intros Hv Hfun Hneg. apply Hiff.
  destruct (endpoints t) as [|e0 rest] eqn:Hl; [by left | right].
  split; [exact Hneg | split].
  - intros [Hv' _]. congruence.
  - intros Hall. specialize (Hall e0 (list_elem_of_here _ _)).
    specialize (Hfun e0 (list_elem_of_here _ _)).
    unfold Spec.isFailing in Hall. rewrite Hfun in Hall. discriminate.
Qed.

Lemma status_notcontacted_fallback_witness :
  let t := Examples.tracker false [Examples.functioning; Examples.functioning] in
  Spec.verified t = false ∧ status t = NotContacted.
Proof.
  split; [reflexivity|].
  apply status_notcontacted_fallback.
  - reflexivity.
  - intros e He. cbn in He.
    repeat (apply elem_of_cons in He as [-> | He]; [reflexivity|]).
    by apply elem_of_nil in He.
  - intros e He. cbn in He.
    repeat (apply elem_of_cons in He as [-> | He]; [reflexivity|]).
    by apply elem_of_nil in He.
Defined.

(** C5 as written fails in its last part: an endpoint can be functioning
    and negotiating at once (a re-announce in flight after a success), and
    then the unverified tracker is [Updating]. *)
Lemma status_notcontacted_not_for_all_functioning :
  ¬ (∀ t, Spec.verified t = false →
          (∀ e, e ∈ endpoints t → Spec.isFunctioning e = true) →
          status t = NotContacted).
Proof.
  intros H.
  specialize (H (Examples.tracker false [Examples.refreshing])).
  assert (status (Examples.tracker false [Examples.refreshing]) = Updating)
    as Hu by reflexivity.
  rewrite H in Hu; [discriminate | reflexivity |].
  intros e He. cbn in He.
  apply elem_of_cons in He as [-> | He]; [reflexivity|].
  by apply elem_of_nil in He.
Qed.

(** ** Removing duplicates, first occurrence kept *)

Section KeepFirst.
Context {A : Type} `{EqDecision A}.
Implicit Types (x : A) (l acc : list A).

Lemma elem_of_keep_first x l : x ∈ Spec.keep_first l ↔ x ∈ l.
Proof.
  induction l as [|y l IH]; [done|]. cbn [Spec.keep_first].
  rewrite !elem_of_cons, list_elem_of_filter, IH.
  destruct (decide (x = y)); tauto.
Qed.

Lemma NoDup_keep_first l : NoDup (Spec.keep_first l).
Proof.
  induction l as [|y l IH]; cbn [Spec.keep_first]; [by apply NoDup_nil|].
  apply NoDup_cons. split; [|by apply NoDup_filter].
  rewrite list_elem_of_filter. tauto.
Qed.

Lemma keep_first_sublist l : Spec.keep_first l `sublist_of` l.
Proof.
  induction l as [|y l IH]; cbn [Spec.keep_first]; [done|].
  apply sublist_skip. etrans; [apply sublist_filter | done].
Qed.

Lemma filter_not_elem_of_nil l : filter (λ y, y ∉ @nil A) l = l.
Proof.
  induction l as [|y l IH]; [done|].
  rewrite filter_cons_True by apply not_elem_of_nil. by rewrite IH.
Qed.

(** Appending keeps the first list and what the second adds to it. *)
Lemma keep_first_app l1 l2 :
  Spec.keep_first (l1 ++ l2)
  = Spec.keep_first l1 ++ filter (λ y, y ∉ l1) (Spec.keep_first l2).
Proof.
  revert l2. induction l1 as [|x l1 IH]; intros l2.
  - simpl. by rewrite filter_not_elem_of_nil.
  - cbn [app Spec.keep_first]. rewrite IH, filter_app, list_filter_filter.
    do 2 f_equal. apply list_filter_iff. intros y.
    rewrite not_elem_of_cons. naive_solver.
Qed.

(** The head of the result is the head of the input: the occurrence
    kept is the first one. *)
Lemma keep_first_head l : head (Spec.keep_first l) = head l.
Proof. by destruct l. Qed.

End KeepFirst.

(** ** messages() *)

Section Messages.
Context `{Q : Qt.Api}.
Implicit Types (t : TrackerEntry) (field : lt.announce_endpoint → string).

Lemma isEmpty_true (s : Qt.QString) : Qt.isEmpty s = true ↔ s = [].
Proof. destruct s; simpl; split; congruence. Qed.

Lemma isEmptyList_true (l : Qt.QStringList) : Qt.isEmptyList l = true ↔ l = [].
Proof. destruct l; simpl; split; congruence. Qed.

(** What one call of the lambda does. *)
Lemma addMessage_cases acc msg :
  let message := Qt.trimmed (Qt.fromStdString msg) in
  addMessage acc msg
  = if decide (message ≠ [] ∧ message ∉ acc) then acc ++ [message] else acc.
Proof.
  intros message. unfold addMessage. fold message. unfold Qt.contains.
  clearbody message.
  destruct (decide (message ≠ [] ∧ message ∉ acc)) as [[Hne Hin] | Hno].
  - destruct message as [|c s]; [done|]. cbn [Qt.isEmpty negb andb].
    by rewrite bool_decide_eq_false_2.
  - destruct message as [|c s]; [done|]. cbn [Qt.isEmpty negb andb].
    rewrite bool_decide_eq_true_2; [done|].
    destruct (decide (c :: s ∈ acc)); [done|]. exfalso. by apply Hno.
Qed.

(** The loop over the endpoints, started from any list [acc]: it appends
    to [acc] the collected texts that [acc] does not have yet. *)
Lemma addMessage_loop field (l : list lt.announce_endpoint) : ∀ acc,
  fold_left (λ messages endpoint, addMessage messages (field endpoint)) l acc
  = acc ++ filter (λ s, s ∉ acc)
             (Spec.keep_first
                (filter (λ s, s ≠ []) (map (Spec.trimmed_field field) l))).
Proof.
  induction l as [|e l IH]; intros acc.
  - simpl. by rewrite app_nil_r.
  - cbn [fold_left map]. rewrite IH, addMessage_cases. cbv zeta.
    fold (Spec.trimmed_field field e).
    set (x := Spec.trimmed_field field e).
    set (ys := filter (λ s, s ≠ []) (map (Spec.trimmed_field field) l)).
    destruct (decide (x ≠ [] ∧ x ∉ acc)) as [[Hne Hin] | Hno].
    + rewrite filter_cons_True by done. cbn [Spec.keep_first].
      rewrite filter_cons_True by done.
      rewrite <- app_assoc. cbn [app]. do 2 f_equal.
      rewrite list_filter_filter. apply list_filter_iff. intros y.
      rewrite not_elem_of_app, list_elem_of_singleton. naive_solver.
    + f_equal. destruct (decide (x = [])) as [Hx | Hx].
      * rewrite filter_cons_False by naive_solver. done.
      * assert (x ∈ acc) as Hin.
        { destruct (decide (x ∈ acc)); [done|]. exfalso. by apply Hno. }
        rewrite filter_cons_True by done. cbn [Spec.keep_first].
        rewrite filter_cons_False by naive_solver.
        rewrite list_filter_filter. apply list_filter_iff. intros y.
        split; [|by intros [? _]]. intros Hy. split; [done|].
        intros ->. by apply Hy.
Qed.

Lemma addMessage_loop_nil field (l : list lt.announce_endpoint) :
  fold_left (λ messages endpoint, addMessage messages (field endpoint)) l []
  = Spec.keep_first
      (filter (λ s, s ≠ []) (map (Spec.trimmed_field field) l)).
Proof. rewrite addMessage_loop. simpl. apply filter_not_elem_of_nil. Qed.

(** [messages()] in the words of the spec: the collected messages, or,
    when there is none and the tracker is not working, the collected
    error texts. *)
Lemma messages_two_passes t :
  messages t
  = if decide (Spec.collect lt.message t = [] ∧ status t = NotWorking)
    then Spec.collect lt.last_error_message t
    else Spec.collect lt.message t.
Proof.
  unfold messages. cbv zeta. rewrite addMessage_loop_nil.
  fold (Spec.collect lt.message t).
  destruct (decide (Spec.collect lt.message t = [] ∧ status t = NotWorking))
    as [[Hc Hs] | Hno].
  - rewrite Hc. cbn [Qt.isEmptyList andb].
    rewrite bool_decide_eq_true_2 by done. apply addMessage_loop_nil.
  - destruct (Spec.collect lt.message t) as [|m ms] eqn:Hc;
      cbn [Qt.isEmptyList andb]; [|done].
    rewrite bool_decide_eq_false_2; [done|]. intros Hs. by apply Hno.
Qed.

Lemma collect_NoDup field t : NoDup (Spec.collect field t).
Proof. apply NoDup_keep_first. Qed.

Lemma collect_nonempty field t : [] ∉ Spec.collect field t.
Proof.
  unfold Spec.collect. rewrite elem_of_keep_first, list_elem_of_filter.
  tauto.
Qed.

Lemma collect_nil field t :
  (∀ e, e ∈ lt.endpoints (nativeEntry t) → Spec.trimmed_field field e = []) →
  Spec.collect field t = [].
Proof.
  intros Hall. unfold Spec.collect.
  induction (lt.endpoints (nativeEntry t)) as [|e l IH]; [done|].
  cbn [map]. rewrite filter_cons_False.
  - apply IH. intros x Hx. apply Hall. by right.
  - intros Hne. apply Hne, Hall. left.
Qed.

End Messages.

(** C6, as the code has it: when some endpoint has a non-empty trimmed
    message, or the tracker is not [NotWorking], [messages()] is the list
    of the trimmed non-empty messages in endpoint order, duplicates removed
    with the first occurrence kept; in every case [messages()] holds no
    empty string and no string twice. *)
Theorem messages_collects_messages `{Q : Qt.Api} (t : TrackerEntry) :
  (Spec.collect lt.message t ≠ [] ∨ status t ≠ NotWorking →
   messages t = Spec.collect lt.message t)
  ∧ NoDup (messages t)
  ∧ [] ∉ messages t.
Proof.
  rewrite messages_two_passes. split; [|split].
  - intros Hcase. rewrite decide_False; [done | tauto].
  - case_decide; apply collect_NoDup.
  - case_decide; apply collect_nonempty.
Qed.

Lemma messages_collects_messages_witness :
  let t := Examples.entry "http://a.example/announce" 0 true
             [Examples.endpoint " busy " "" 7 false true;
              Examples.endpoint "" "timeout" (-1) false false;
              Examples.endpoint "busy" "" 9 false true] in
  @messages Qt5.api t = [Qt5.latin1 "busy"]
  ∧ @messages Qt5.api t = @Spec.collect Qt5.api lt.message t.
Proof.
  split; [reflexivity|].
  apply (@messages_collects_messages Qt5.api).
  right. vm_compute. discriminate.
Defined.

(** C6 as written fails where the second pass runs: a failing tracker
    whose endpoints carry no message reports the error texts. *)
Lemma messages_not_only_messages :
  ¬ (∀ t, @messages Qt5.api t = @Spec.collect Qt5.api lt.message t).
Proof.
  intros H.
  specialize (H (Examples.tracker true [Examples.failing "timeout"])).
  vm_compute in H. discriminate.
Qed.

(** C7: when no endpoint has a non-empty trimmed message, [messages()] is
    the deduplicated list of trimmed non-empty error texts if the tracker
    is [NotWorking], and is empty otherwise. *)
Theorem messages_error_fallback `{Q : Qt.Api} (t : TrackerEntry) :
  (∀ e, e ∈ lt.endpoints (nativeEntry t) →
        Qt.trimmed (Qt.fromStdString (lt.message e)) = []) →
  (status t = NotWorking →
   messages t = Spec.collect lt.last_error_message t)
  ∧ (status t ≠ NotWorking → messages t = []).
Proof.
  intros Hnone. rewrite messages_two_passes.
  rewrite (collect_nil lt.message t Hnone). split; intros Hs.
  - by rewrite decide_True.
  - rewrite decide_False; [done | tauto].
Qed.

Lemma messages_error_fallback_witness :
  let t := Examples.tracker true
             [Examples.failing "timeout"; Examples.failing "refused";
              Examples.failing " timeout"] in
  let u := Examples.tracker false
             [Examples.endpoint "  " "stale" 4 false true] in
  (status t = NotWorking
   ∧ @messages Qt5.api t = [Qt5.latin1 "timeout"; Qt5.latin1 "refused"])
  ∧ (status u ≠ NotWorking ∧ @messages Qt5.api u = []).
Proof.
  split; (split; [vm_compute; done|]).
  - change [Qt5.latin1 "timeout"; Qt5.latin1 "refused"]
      with (@Spec.collect Qt5.api lt.last_error_message
              (Examples.tracker true
                 [Examples.failing "timeout"; Examples.failing "refused";
                  Examples.failing " timeout"])).
    apply (@messages_error_fallback Qt5.api); [|reflexivity].
    intros e He. cbn in He.
    repeat (apply elem_of_cons in He as [-> | He]; [reflexivity|]).
    by apply elem_of_nil in He.
  - apply (@messages_error_fallback Qt5.api); [|vm_compute; done].
    intros e He. cbn in He.
    repeat (apply elem_of_cons in He as [-> | He]; [reflexivity|]).
    by apply elem_of_nil in He.
Defined.

(** ** numSeeds(), numLeeches(), numDownloaded() *)

Section Counters.
Context {E : Type} (counter : E → Z).

Lemma foldr_max_init (xs : list Z) a b :
  foldr Z.max (Z.max a b) xs = Z.max b (foldr Z.max a xs).
Proof. induction xs as [|x xs IH]; simpl; [lia | rewrite IH; lia]. Qed.

(** The loop [value = std::max(value, counter(endpoint))]. *)
Lemma max_loop (l : list E) : ∀ value,
  fold_left (λ value endpoint, Z.max value (counter endpoint)) l value
  = foldr Z.max value (map counter l).
Proof.
  induction l as [|e l IH]; intros value; [done|].
  cbn [fold_left map foldr]. by rewrite IH, foldr_max_init.
Qed.

Lemma max_counter_is_max (cs : list Z) :
  Spec.is_max_counter cs (Spec.max_counter cs).
Proof.
  unfold Spec.is_max_counter, Spec.max_counter.
  induction cs as [|c cs (Hlo & Hub & Hin)]; simpl.
  - split; [lia|]. split; [|by left]. intros c Hc. by apply elem_of_nil in Hc.
  - split; [lia|]. split.
    + intros x Hx. apply elem_of_cons in Hx as [-> | Hx]; [lia|].
      specialize (Hub x Hx). lia.
    + destruct (Z.max_spec c (foldr Z.max (-1) cs)) as [[_ ->] | [_ ->]].
      * destruct Hin as [? | ?]; [by left | right; by right].
      * right. left.
Qed.

Lemma max_counter_all_unknown (cs : list Z) :
  (∀ c, c ∈ cs → c = -1) → Spec.max_counter cs = -1.
Proof.
  intros Hall. destruct (max_counter_is_max cs) as (_ & _ & [? | Hin]); [done|].
  by apply Hall.
Qed.

End Counters.

(** C8: each aggregate counter is the maximum of its own per-endpoint
    counter and the sentinel -1; with no endpoint, or only unknown
    counters, it is -1. *)
Theorem counters_are_maxima (t : TrackerEntry) :
  let seeds := map Endpoint_numSeeds (endpoints t) in
  let leeches := map Endpoint_numLeeches (endpoints t) in
  let downloaded := map Endpoint_numDownloaded (endpoints t) in
  (numSeeds t = Spec.max_counter seeds
   ∧ numLeeches t = Spec.max_counter leeches
   ∧ numDownloaded t = Spec.max_counter downloaded)
  ∧ (Spec.is_max_counter seeds (numSeeds t)
     ∧ Spec.is_max_counter leeches (numLeeches t)
     ∧ Spec.is_max_counter downloaded (numDownloaded t))
  ∧ ((∀ c, c ∈ seeds → c = -1) → numSeeds t = -1)
  ∧ ((∀ c, c ∈ leeches → c = -1) → numLeeches t = -1)
  ∧ ((∀ c, c ∈ downloaded → c = -1) → numDownloaded t = -1).
Proof.
  intros seeds leeches downloaded.
  assert (numSeeds t = Spec.max_counter seeds) as Hs by apply max_loop.
  assert (numLeeches t = Spec.max_counter leeches) as Hl by apply max_loop.
  assert (numDownloaded t = Spec.max_counter downloaded) as Hd by apply max_loop.
  rewrite Hs, Hl, Hd.
  split; [done|]. split.
  { split; [|split]; apply max_counter_is_max. }
  split; [|split]; apply max_counter_all_unknown.
Qed.

Lemma counters_are_maxima_witness :
  let t := Examples.tracker true
             [Examples.counting (-1); Examples.counting 3; Examples.counting (-1)] in
  let u := Examples.tracker true [Examples.counting (-1); Examples.counting (-1)] in
  let z := Examples.tracker true [] in
  numSeeds t = 3 ∧ numSeeds u = -1 ∧ numSeeds z = -1 ∧ numLeeches t = -1.
Proof.
  split; [|split; [|split]].
  - refine (eq_trans (proj1 (proj1 (counters_are_maxima _))) _). reflexivity.
  - apply (counters_are_maxima
             (Examples.tracker true [Examples.counting (-1); Examples.counting (-1)])).
    intros c Hc. cbn in Hc.
    repeat (apply elem_of_cons in Hc as [-> | Hc]; [reflexivity|]).
    by apply elem_of_nil in Hc.
  - apply (counters_are_maxima (Examples.tracker true [])).
    intros c Hc. by apply elem_of_nil in Hc.
  - apply (counters_are_maxima
             (Examples.tracker true
                [Examples.counting (-1); Examples.counting 3; Examples.counting (-1)])).
    intros c Hc. cbn in Hc.
    repeat (apply elem_of_cons in Hc as [-> | Hc]; [reflexivity|]).
    by apply elem_of_nil in Hc.
Defined.

(** ** operator== and qHash *)

Section Equality.
Context `{Q : Qt.Api}.
Implicit Types (left right key : TrackerEntry) (seed : Z).

Lemma operator_eq_true left right :
  operator_eq left right = true
  ↔ tier left = tier right
    ∧ Qt.QUrl_ctor (url left) = Qt.QUrl_ctor (url right).
Proof.
  unfold operator_eq. rewrite andb_true_iff, !bool_decide_eq_true. done.
Qed.

(** Entries with the same tier and the same URL text hash alike. *)
Lemma qHash_same_text left right seed :
  tier left = tier right → url left = url right →
  qHash left seed = qHash right seed.
Proof. unfold qHash. by intros -> ->. Qed.

(** The tier is mixed in with an exclusive or, which cannot make up for
    a difference of the two text hashes. *)
Lemma qHash_text_differs left right seed :
  tier left = tier right →
  Qt.qHash_QString (url left) seed ≠ Qt.qHash_QString (url right) seed →
  qHash left seed ≠ qHash right seed.
Proof.
  unfold qHash. intros -> Hne Heq. apply Hne.
  apply (f_equal (λ z, Z.lxor z (Qt.qHash_int (tier right)))) in Heq.
  cbv beta in Heq.
  by rewrite !Z.lxor_assoc, Z.lxor_nilpotent, !Z.lxor_0_r in Heq.
Qed.

End Equality.

(** C1 on the code: the two entries of the spec's example are equal and
    hash identically, but [operator==] compares the URLs as [QUrl]s while
    [qHash] hashes the URL text, so two spellings of one URL give equal
    entries with different hashes. *)
Theorem qHash_not_congruent_with_operator_eq :
  let a := Examples.entry "http://a.example/announce" 0 false [] in
  let b := Examples.entry "http://a.example/announce" 0 true [Examples.functioning] in
  let c := Examples.entry "HTTP://a.example/announce" 0 false [] in
  (@operator_eq Qt5.api a b = true ∧ @qHash Qt5.api a 0 = @qHash Qt5.api b 0)
  ∧ (@operator_eq Qt5.api a c = true ∧ @qHash Qt5.api a 0 ≠ @qHash Qt5.api c 0).
Proof.
  intros a b c. split; split.
  - reflexivity.
  - by apply qHash_same_text.
  - reflexivity.
  - apply qHash_text_differs; [reflexivity|]. vm_compute. discriminate.
Qed.

(** C9: two entries are equal exactly when their tiers are the same
    number and their URLs are the same [QUrl]; entries of different tiers
    are not equal, whatever their URLs; the URLs are not compared as
    text. *)
Theorem operator_eq_tier_and_url :
  (∀ (Q : Qt.Api) (left right : TrackerEntry),
     (operator_eq left right = true
      ↔ tier left = tier right
        ∧ Qt.QUrl_ctor (url left) = Qt.QUrl_ctor (url right))
     ∧ (tier left ≠ tier right → operator_eq left right = false))
  ∧ (let a := Examples.entry "http://a.example/announce" 0 false [] in
     let b := Examples.entry "http://a.example/announce" 1 false [] in
     let c := Examples.entry "HTTP://a.example/announce" 0 false [] in
     @operator_eq Qt5.api a b = false
     ∧ @url Qt5.api a ≠ @url Qt5.api c ∧ @operator_eq Qt5.api a c = true).
Proof.
  split.
  - intros Q left right. split; [apply operator_eq_true|].
    intros Hne. apply not_true_is_false. rewrite operator_eq_true. tauto.
  - cbv zeta. split; [reflexivity|]. split; [|reflexivity].
    vm_compute. discriminate.
Qed.

Lemma operator_eq_tier_and_url_witness :
  @operator_eq Qt5.api
    (Examples.entry "http://a.example/announce" 0 false [])
    (Examples.entry "http://a.example/announce" 7 false []) = false.
Proof.
  apply (proj1 operator_eq_tier_and_url Qt5.api). vm_compute. discriminate.
Defined.

(** ** setTier() *)

(** C10, as the code has it: [setTier(v)] makes [tier()] return [v]
    narrowed to the eight bits of the native tier, hence [v] itself when
    [0 <= v <= 255], and leaves the URL, the verified flag, the endpoints
    and everything computed from them as they were. *)
Theorem setTier_only_tier `{Q : Qt.Api} (value : Z) (t : TrackerEntry) :
  tier (setTier value t) = value mod 256
  ∧ (0 ≤ value ≤ 255 → tier (setTier value t) = value)
  ∧ 0 ≤ tier (setTier value t) ≤ 255
  ∧ url (setTier value t) = url t
  ∧ Spec.verified (setTier value t) = Spec.verified t
  ∧ endpoints (setTier value t) = endpoints t
  ∧ lt.endpoints (nativeEntry (setTier value t)) = lt.endpoints (nativeEntry t)
  ∧ status (setTier value t) = status t
  ∧ messages (setTier value t) = messages t
  ∧ numSeeds (setTier value t) = numSeeds t
  ∧ numLeeches (setTier value t) = numLeeches t
  ∧ numDownloaded (setTier value t) = numDownloaded t.
Proof.
  split; [reflexivity|]. split.
  { intros Hrange. unfold tier, setTier, nativeEntry. cbn.
    by apply Z.mod_small; lia. }
  split.
  { unfold tier, setTier, nativeEntry. cbn.
    pose proof (Z.mod_pos_bound value 256). lia. }
  repeat apply conj; reflexivity.
Qed.

Lemma setTier_only_tier_witness :
  let t := Examples.tracker true [Examples.failing "timeout"] in
  tier (setTier 7 t) = 7 ∧ @messages Qt5.api (setTier 7 t) = @messages Qt5.api t.
Proof.
  split.
  - apply (proj1 (proj2 (@setTier_only_tier Qt5.api 7 _))). lia.
  - apply (@setTier_only_tier Qt5.api 7).
Defined.

(** C10 as written fails for a value that does not fit the native tier:
    [setTier(256)] leaves [tier()] at 0. *)
Lemma setTier_narrows_the_tier :
  ¬ (∀ (t : TrackerEntry) (v : Z), tier (setTier v t) = v).
Proof.
  intros H. specialize (H (Examples.tracker false []) 256). discriminate.
Qed.

(** * Further properties of the tracker row *)

(** ** status(): what the scan returns *)

(** On a verified tracker the loop stops at the first endpoint that is not
    failing, with that endpoint's status. *)
Lemma status_loop_verified l : ∀ n,
  status_loop true l n =
    match find (λ e, negb (Spec.isFailing e)) l with
    | Some e => inl (Endpoint_status e)
    | None => inr (n + Z.of_nat (length l))
    end.
Proof.
  induction l as [|e l IH]; intros n.
  - simpl. f_equal. lia.
  - cbn [find]. loop_step e.
    + apply Endpoint_status_Working in E as E'. destruct E' as [En Ef].
      unfold Spec.isFailing. rewrite Ef. simpl. by rewrite E.
    + apply Endpoint_status_Updating in E as E'.
      unfold Spec.isFailing. rewrite E', andb_false_r. simpl. by rewrite E.
    + apply Endpoint_status_NotWorking in E. rewrite E. simpl.
      rewrite IH. destruct (find _ l); [done|]. f_equal. cbn [length]. lia.
Qed.

(** When the tracker is not verified, or no endpoint is negotiating, the
    outcome of the loop is a function of three facts that do not depend on
    the order of the endpoints. *)
Lemma status_loop_unordered v l : ∀ n,
  v = false ∨ Forall (λ e, Spec.isNegotiating e = false) l →
  status_loop v l n =
    if existsb Spec.isNegotiating l then inl Updating
    else if v && existsb Spec.isFunctioning l then inl Working
    else inr (n + Z.of_nat (length (filter (λ e, Spec.isFailing e = true) l))).
Proof.
  induction l as [|e l IH]; intros n Hcase.
  - simpl. rewrite andb_false_r. f_equal. lia.
  - assert (v = false ∨ Forall (λ e, Spec.isNegotiating e = false) l) as Hrest.
    { destruct Hcase as [? | Hall]; [by left | right].
      by apply Forall_cons in Hall as [_ ?]. }
    cbn [existsb]. loop_step e.
    + apply Endpoint_status_Working in E as [En Ef]. rewrite En, Ef. simpl.
      destruct v.
      * destruct Hcase as [? | Hall]; [discriminate|].
        assert (existsb Spec.isNegotiating l = false) as ->; [|done].
        apply Forall_cons in Hall as [_ Hall].
        clear -Hall. induction Hall as [|x l Hx _ IHl]; [done|].
        simpl. by rewrite Hx, IHl.
      * rewrite (IH n Hrest). simpl.
        rewrite filter_cons_False; [done|].
        unfold Spec.isFailing. rewrite Ef. simpl. discriminate.
    + apply Endpoint_status_Updating in E. by rewrite E.
    + apply Endpoint_status_NotWorking in E as Efail.
      unfold Spec.isFailing in Efail. apply andb_true_iff in Efail as [Ef En].
      apply negb_true_iff in Ef, En. rewrite En, Ef. simpl.
      rewrite (IH (n + 1) Hrest).
      rewrite filter_cons_True
        by (unfold Spec.isFailing; by rewrite Ef, En).
      destruct (existsb Spec.isNegotiating l); [done|].
      destruct (v && existsb Spec.isFunctioning l); [done|].
      f_equal. cbn [length]. lia.
Qed.

Lemma existsb_Permutation {A} (f : A → bool) (l k : list A) :
  l ≡ₚ k → existsb f l = existsb f k.
Proof.
  intros Hperm. apply eq_true_iff_eq. rewrite !existsb_exists.
  split; intros (x & Hx & Hf); exists x; split; try done.
  - by rewrite <- Hperm.
  - by rewrite Hperm.
Qed.

(** X1: on a verified tracker, [status()] is the status of the first
    endpoint that is negotiating or functioning; when every endpoint is
    failing it is [NotWorking], and [NotContacted] when there is none. *)
Theorem status_verified_first_settled (t : TrackerEntry) :
  Spec.verified t = true →
  status t =
    match find (λ e, negb (Spec.isFailing e)) (endpoints t) with
    | Some e => Endpoint_status e
    | None => match endpoints t with [] => NotContacted | _ :: _ => NotWorking end
    end.
Proof.
  intros Hv. unfold status.
  change (lt.verified (nativeEntry t)) with (Spec.verified t).
  cbv zeta. rewrite Hv, status_loop_verified.
  destruct (find _ (endpoints t)); [done|].
  rewrite bool_decide_eq_true_2 by lia.
  destruct (endpoints t); [done|].
  rewrite bool_decide_eq_false_2; [done | cbn [length]; lia].
Qed.

Lemma status_verified_first_settled_witness :
  let t := Examples.tracker true
             [Examples.failing "timeout"; Examples.functioning;
              Examples.negotiating] in
  Spec.verified t = true ∧ status t = Working.
Proof.
  split; [reflexivity|].
  refine (eq_trans (status_verified_first_settled _ _) _); reflexivity.
Defined.

(** X2: the order of the endpoints does not change [status()] when the
    tracker is not verified, or when no endpoint is negotiating. *)
Theorem status_order_irrelevant (t t' : TrackerEntry) :
  endpoints t ≡ₚ endpoints t' →
  Spec.verified t = Spec.verified t' →
  Spec.verified t = false
    ∨ (∀ e, e ∈ endpoints t → Spec.isNegotiating e = false) →
  status t = status t'.
Proof.
  intros Hperm Hv Hcase. unfold status.
  change (lt.verified (nativeEntry t)) with (Spec.verified t).
  change (lt.verified (nativeEntry t')) with (Spec.verified t').
  cbv zeta. rewrite <- Hv.
  rewrite !status_loop_unordered.
  - rewrite <- (existsb_Permutation _ _ _ Hperm).
    rewrite <- (existsb_Permutation Spec.isFunctioning _ _ Hperm).
    assert (length (endpoints t') = length (endpoints t)) as ->
      by (by rewrite Hperm).
    assert (length (filter (λ e, Spec.isFailing e = true) (endpoints t'))
            = length (filter (λ e, Spec.isFailing e = true) (endpoints t)))
      as -> by (by rewrite Hperm).
    done.
  - destruct Hcase as [? | Hall]; [by left | right].
    apply Forall_forall. intros e He. apply Hall. by rewrite Hperm.
  - destruct Hcase as [? | Hall]; [by left | right]. by apply Forall_forall.
Qed.

Lemma status_order_irrelevant_witness :
  let t := Examples.tracker false [Examples.functioning; Examples.negotiating] in
  let t' := Examples.tracker false [Examples.negotiating; Examples.functioning] in
  endpoints t ≡ₚ endpoints t' ∧ status t = status t'.
Proof.
  split; [apply Permutation_swap|].
  apply status_order_irrelevant.
  - apply Permutation_swap.
  - reflexivity.
  - by left.
Defined.

(** X3: [status()] is [Updating] or [Working] only if some endpoint has
    that very status; [Working] moreover needs the verified flag. *)
Theorem status_reports_an_endpoint (t : TrackerEntry) :
  status t = Updating ∨ status t = Working →
  (∃ e, e ∈ endpoints t ∧ Endpoint_status e = status t)
  ∧ (status t = Working → Spec.verified t = true).
Proof.
  unfold status. change (lt.verified (nativeEntry t)) with (Spec.verified t).
  cbv zeta.
  destruct (status_loop _ (endpoints t) 0) as [s|m] eqn:Hs.
  - intros _. split; [by eapply status_loop_early_elem|].
    intros ->. by destruct (status_loop_early _ _ _ _ Hs) as [? | [_ ?]].
  - destruct (_ && _); intros [? | ?]; discriminate.
Qed.

Lemma status_reports_an_endpoint_witness :
  let t := Examples.tracker true [Examples.failing "refused"; Examples.refreshing] in
  status t = Updating
  ∧ ∃ e, e ∈ endpoints t ∧ Endpoint_status e = status t.
Proof.
  split; [reflexivity|].
  apply status_reports_an_endpoint. by left.
Defined.

(** [NotWorking] read on the list of endpoints. *)
Lemma status_NotWorking_failing (t : TrackerEntry) :
  status t = NotWorking
  ↔ endpoints t ≠ [] ∧ Forall (λ e, Spec.isFailing e = true) (endpoints t).
Proof.
  unfold status. cbv zeta. split.
  - destruct (status_loop _ (endpoints t) 0) as [s|m] eqn:Hs.
    { intros ->. destruct (status_loop_early _ _ _ _ Hs) as [? | [? _]]; discriminate. }
    destruct (bool_decide (m = _)) eqn:Hm; [|discriminate].
    destruct (bool_decide (m = 0)) eqn:H0; [discriminate|]. intros _.
    apply bool_decide_eq_true in Hm. apply bool_decide_eq_false in H0.
    split.
    + intros Hnil. rewrite Hnil in Hm. cbn [length] in Hm. lia.
    + apply (status_loop_counted_all (lt.verified (nativeEntry t)) _ 0).
      by rewrite Hs, Hm.
  - intros [Hne Hall]. rewrite (status_loop_all_failing _ _ 0 Hall).
    rewrite bool_decide_eq_true_2 by lia.
    rewrite bool_decide_eq_false_2; [done|].
    destruct (endpoints t); [done | cbn [length]; lia].
Qed.

Lemma status_NotWorking_Permutation (t t' : TrackerEntry) :
  lt.endpoints (nativeEntry t) ≡ₚ lt.endpoints (nativeEntry t') →
  status t = NotWorking ↔ status t' = NotWorking.
Proof.
  intros Hperm.
  assert (endpoints t ≡ₚ endpoints t') as Hp.
  { unfold endpoints, nativeEntry in *. by rewrite Hperm. }
  rewrite !status_NotWorking_failing.
  assert (endpoints t = [] ↔ endpoints t' = []) as Hnil.
  { split; intros Hn; rewrite Hn in Hp.
    - symmetry in Hp. by apply Permutation_nil_r in Hp.
    - by apply Permutation_nil_r in Hp. }
  assert (Forall (λ e, Spec.isFailing e = true) (endpoints t)
          ↔ Forall (λ e, Spec.isFailing e = true) (endpoints t')) as Hall
    by (by rewrite Hp).
  tauto.
Qed.

(** ** messages(): where the texts come from *)

Section MessagesMore.
Context `{Q : Qt.Api}.
Implicit Types (t : TrackerEntry) (field : lt.announce_endpoint → string).

Lemma elem_of_collect field t x :
  x ∈ Spec.collect field t
  ↔ x ≠ [] ∧ ∃ e, e ∈ lt.endpoints (nativeEntry t)
                  ∧ Spec.trimmed_field field e = x.
Proof.
  unfold Spec.collect.
  rewrite elem_of_keep_first, list_elem_of_filter, list_elem_of_fmap.
  split; intros [Hne (e & H1 & H2)]; (split; [done|]); exists e; by split.
Qed.

Lemma collect_nil_iff field t :
  Spec.collect field t = []
  ↔ ∀ e, e ∈ lt.endpoints (nativeEntry t) → Spec.trimmed_field field e = [].
Proof.
  split; [|apply collect_nil].
  intros Hnil e He.
  destruct (decide (Spec.trimmed_field field e = [])) as [|Hne]; [done|].
  assert (Spec.trimmed_field field e ∈ Spec.collect field t) as Hin.
  { apply elem_of_collect. eauto. }
  rewrite Hnil in Hin. by apply elem_of_nil in Hin.
Qed.

Lemma collect_length field t :
  (length (Spec.collect field t) ≤ length (lt.endpoints (nativeEntry t)))%nat.
Proof.
  unfold Spec.collect.
  etrans; [apply sublist_length, keep_first_sublist|].
  etrans; [apply length_filter|]. by rewrite length_map.
Qed.

End MessagesMore.

(** X4: every text of [messages()] is the trimmed message of some
    endpoint, or else the trimmed error text of some endpoint, and then the
    tracker is [NotWorking] and no endpoint has a non-empty trimmed
    message: the two kinds are never mixed. *)
Theorem messages_provenance `{Q : Qt.Api} (t : TrackerEntry) (x : Qt.QString) :
  x ∈ messages t →
  (∃ e, e ∈ lt.endpoints (nativeEntry t)
        ∧ x = Spec.trimmed_field lt.message e)
  ∨ (status t = NotWorking
     ∧ (∀ e, e ∈ lt.endpoints (nativeEntry t)
             → Spec.trimmed_field lt.message e = [])
     ∧ ∃ e, e ∈ lt.endpoints (nativeEntry t)
            ∧ x = Spec.trimmed_field lt.last_error_message e).
Proof.
  rewrite messages_two_passes. case_decide as Hcase.
  - destruct Hcase as [Hnil Hs]. intros Hx.
    apply elem_of_collect in Hx as [_ (e & He & <-)].
    right. split; [done|]. split; [by apply collect_nil_iff | eauto].
  - intros Hx. apply elem_of_collect in Hx as [_ (e & He & <-)]. left. eauto.
Qed.

Lemma messages_provenance_witness :
  let t := Examples.tracker true [Examples.failing " timeout "] in
  Qt5.latin1 "timeout" ∈ @messages Qt5.api t
  ∧ status t = NotWorking.
Proof.
  assert (Qt5.latin1 "timeout"
          ∈ @messages Qt5.api (Examples.tracker true [Examples.failing " timeout "]))
    as Hin by (vm_compute; left).
  split; [exact Hin|].
  destruct (@messages_provenance Qt5.api _ _ Hin) as [(e & He & Hx) | [Hs _]];
    [|exact Hs].
  exfalso. cbn in He. apply list_elem_of_singleton in He as ->.
  vm_compute in Hx. discriminate.
Defined.

(** X5: no tracker message is lost: the trimmed message of every
    endpoint, if not empty, is in [messages()]. *)
Theorem messages_keep_every_message `{Q : Qt.Api} (t : TrackerEntry)
    (e : lt.announce_endpoint) :
  e ∈ lt.endpoints (nativeEntry t) →
  Spec.trimmed_field lt.message e ≠ [] →
  Spec.trimmed_field lt.message e ∈ messages t.
Proof.
  intros He Hne. rewrite messages_two_passes.
  rewrite decide_False.
  - apply elem_of_collect. eauto.
  - intros [Hnil _]. apply Hne. by apply (collect_nil_iff lt.message t).
Qed.

Lemma messages_keep_every_message_witness :
  let e := Examples.endpoint " busy " "timeout" 0 false false in
  let t := Examples.tracker true [Examples.failing "refused"; e] in
  Qt5.latin1 "busy" ∈ @messages Qt5.api t.
Proof.
  apply (@messages_keep_every_message Qt5.api
           (Examples.tracker true
              [Examples.failing "refused";
               Examples.endpoint " busy " "timeout" 0 false false])
           (Examples.endpoint " busy " "timeout" 0 false false)).
  - right. left.
  - vm_compute. discriminate.
Defined.

(** X6: [messages()] has at most one text per endpoint. *)
Theorem messages_at_most_one_per_endpoint `{Q : Qt.Api} (t : TrackerEntry) :
  (length (messages t) ≤ length (endpoints t))%nat.
Proof.
  unfold endpoints. rewrite length_map, messages_two_passes.
  case_decide; apply collect_length.
Qed.

(** X7: reordering the endpoints (and changing the verified flag) changes
    the order of [messages()] at most, never which texts are in it. *)
Theorem messages_same_texts_in_any_order `{Q : Qt.Api} (t t' : TrackerEntry) :
  lt.endpoints (nativeEntry t) ≡ₚ lt.endpoints (nativeEntry t') →
  ∀ x, x ∈ messages t ↔ x ∈ messages t'.
Proof.
  intros Hperm x.
  assert (∀ field y, y ∈ Spec.collect field t ↔ y ∈ Spec.collect field t')
    as Hcollect.
  { intros field y. rewrite !elem_of_collect.
    split; intros [Hne (e & He & Hy)]; (split; [done|]); exists e;
      (split; [|done]).
    - by rewrite <- Hperm.
    - by rewrite Hperm. }
  assert (Spec.collect lt.message t = [] ↔ Spec.collect lt.message t' = [])
    as Hnil.
  { rewrite !collect_nil_iff.
    split; intros Hall e He; apply Hall.
    - by rewrite Hperm.
    - by rewrite <- Hperm. }
  pose proof (status_NotWorking_Permutation t t' Hperm) as Hs.
  rewrite !messages_two_passes.
  destruct (decide (Spec.collect lt.message t = [] ∧ status t = NotWorking))
    as [Hc | Hc];
    destruct (decide (Spec.collect lt.message t' = [] ∧ status t' = NotWorking))
    as [Hc' | Hc']; try apply Hcollect; tauto.
Qed.

Lemma messages_same_texts_in_any_order_witness :
  let t := Examples.tracker true [Examples.failing "timeout"; Examples.failing "refused"] in
  let t' := Examples.tracker false [Examples.failing "refused"; Examples.failing "timeout"] in
  @messages Qt5.api t ≠ @messages Qt5.api t'
  ∧ ∀ x, x ∈ @messages Qt5.api t ↔ x ∈ @messages Qt5.api t'.
Proof.
  split; [vm_compute; discriminate|].
  apply (@messages_same_texts_in_any_order Qt5.api). apply Permutation_swap.
Defined.

(** ** The counters and the set of endpoints *)

Lemma max_counter_subseteq (cs cs' : list Z) :
  cs ⊆ cs' → Spec.max_counter cs ≤ Spec.max_counter cs'.
Proof.
  intros Hsub.
  destruct (max_counter_is_max cs) as (_ & _ & Hin).
  destruct (max_counter_is_max cs') as (Hlo & Hub & _).
  destruct Hin as [-> | Hin]; [done|]. by apply Hub, Hsub.
Qed.

(** X8: a tracker that has every endpoint of another one reports at least
    its counts; in particular the counts do not depend on the order of the
    endpoints. *)
Theorem counters_grow_with_endpoints (t t' : TrackerEntry) :
  endpoints t ⊆ endpoints t' →
  numSeeds t ≤ numSeeds t'
  ∧ numLeeches t ≤ numLeeches t'
  ∧ numDownloaded t ≤ numDownloaded t'.
Proof.
  intros Hsub. unfold numSeeds, numLeeches, numDownloaded.
  rewrite !max_loop.
  split; [|split]; apply max_counter_subseteq;
    intros c (e & -> & He)%list_elem_of_fmap; apply list_elem_of_fmap;
    exists e; (split; [done | by apply Hsub]).
Qed.

Lemma counters_grow_with_endpoints_witness :
  let t := Examples.tracker true [Examples.counting 3] in
  let t' := Examples.tracker false [Examples.counting 5; Examples.counting 3] in
  numSeeds t = 3 ∧ numSeeds t' = 5 ∧ numSeeds t ≤ numSeeds t'.
Proof.
  split; [reflexivity|]. split; [reflexivity|].
  apply counters_grow_with_endpoints.
  intros e He. cbn in He. apply list_elem_of_singleton in He as ->.
  right. left.
Defined.

(** ** Identity of a tracker row *)

(** X10: identity does not look at the announce state: two rows with the
    same URL text and the same tier are equal and have the same hash for
    every seed, whatever their verified flags and endpoints. *)
Theorem identity_ignores_announce_state `{Q : Qt.Api} (t u : TrackerEntry) :
  lt.url (nativeEntry t) = lt.url (nativeEntry u) →
  tier t = tier u →
  operator_eq t u = true ∧ ∀ seed, qHash t seed = qHash u seed.
Proof.
  intros Hurl Htier.
  assert (url t = url u) as Hu by (unfold url; by rewrite Hurl).
  split.
  - apply operator_eq_true. by rewrite Hu.
  - intros seed. unfold qHash. by rewrite Hu, Htier.
Qed.

Lemma identity_ignores_announce_state_witness :
  let t := Examples.tracker false [] in
  let u := Examples.tracker true [Examples.failing "timeout"; Examples.counting 4] in
  @operator_eq Qt5.api t u = true ∧ @qHash Qt5.api t 77 = @qHash Qt5.api u 77.
Proof.
  intros t u.
  destruct (@identity_ignores_announce_state Qt5.api t u eq_refl eq_refl)
    as [Heq Hhash].
  split; [exact Heq | apply Hhash].
Defined.

(** X11: giving a row another tier makes it a different row: after
    [setTier(v)] the row equals the original exactly when the tier that
    is stored, [v] narrowed to eight bits, is the tier it had; so
    [setTier(256)] leaves a row of tier 0 equal to itself. *)
Theorem setTier_changes_identity `{Q : Qt.Api} (value : Z) (t : TrackerEntry) :
  operator_eq (setTier value t) t = true ↔ value mod 256 = tier t.
Proof.
  rewrite operator_eq_true. split; [by intros [? _] | by intros <-].
Qed.

(** The exclusive or of two [uint]s is a [uint]. *)
Lemma lxor_uint (a b : Z) :
  0 ≤ a < 2 ^ 32 → 0 ≤ b < 2 ^ 32 → 0 ≤ Z.lxor a b < 2 ^ 32.
Proof.
  intros Ha Hb.
  assert (0 ≤ Z.lxor a b) as Hlo by (apply Z.lxor_nonneg; lia).
  split; [done|].
  destruct (decide (Z.lxor a b = 0)) as [-> | Hne]; [done|].
  apply Z.log2_lt_pow2; [lia|].
  pose proof (Z.log2_lxor a b ltac:(lia) ltac:(lia)) as Hlog.
  assert (Z.log2 a < 32).
  { destruct (decide (a = 0)) as [-> | ?]; [done|]. apply Z.log2_lt_pow2; lia. }
  assert (Z.log2 b < 32).
  { destruct (decide (b = 0)) as [-> | ?]; [done|]. apply Z.log2_lt_pow2; lia. }
  lia.
Qed.

Lemma Qt5_qHash_QString_uint (key : Qt.QString) (seed : Z) :
  0 ≤ Qt5.qHash_QString key seed < 2 ^ 32.
Proof.
  unfold Qt5.qHash_QString.
  assert (0 ≤ Qt5.uint seed < 2 ^ 32) as Hseed
    by (unfold Qt5.uint; apply Z.mod_pos_bound; lia).
  revert Hseed. generalize (Qt5.uint seed).
  induction key as [|ch key IH]; intros h Hh; [done|].
  cbn [fold_left]. apply IH. unfold Qt5.uint. apply Z.mod_pos_bound. lia.
Qed.

Lemma Qt5_qHash_int_uint (key : Z) : 0 ≤ Qt5.qHash_int key < 2 ^ 32.
Proof.
  unfold Qt5.qHash_int, Qt5.uint. rewrite Z.lxor_0_r.
  apply Z.mod_pos_bound. lia.
Qed.

(** X12: [qHash] returns a [uint] whenever the two Qt hashes it combines
    do: the exclusive or cannot leave the 32 bits. *)
Theorem qHash_is_uint `{Q : Qt.Api} (key : TrackerEntry) (seed : Z) :
  (∀ s sd, 0 ≤ Qt.qHash_QString s sd < 2 ^ 32) →
  (∀ k, 0 ≤ Qt.qHash_int k < 2 ^ 32) →
  0 ≤ qHash key seed < 2 ^ 32.
Proof.
  intros Hs Hi. unfold qHash. by apply lxor_uint.
Qed.

Lemma qHash_is_uint_witness :
  0 ≤ @qHash Qt5.api (Examples.tracker true []) 4294967295 < 2 ^ 32.
Proof.
  apply (@qHash_is_uint Qt5.api).
  - apply Qt5_qHash_QString_uint.
  - apply Qt5_qHash_int_uint.
Defined.

(** * Properties of the RSS folder *)

(** ** std::inplace_merge *)

Section InplaceMerge.
Context {A : Type} (comp : A → A → bool).
Implicit Types (a : A) (l : list A).

(** A range is sorted by [comp] when no element is directly followed by
    one that [comp] puts before it (what [std::is_sorted] checks). *)
Abbreviation notBefore := (λ a b, comp b a = false).

Lemma inplace_merge_nil_l l : RSS.inplace_merge comp [] l = l.
Proof. by destruct l. Qed.

Lemma inplace_merge_nil_r l : RSS.inplace_merge comp l [] = l.
Proof. by destruct l. Qed.

Lemma inplace_merge_cons a1 l1 a2 l2 :
  RSS.inplace_merge comp (a1 :: l1) (a2 :: l2)
  = if comp a2 a1 then a2 :: RSS.inplace_merge comp (a1 :: l1) l2
    else a1 :: RSS.inplace_merge comp l1 (a2 :: l2).
Proof. reflexivity. Qed.

Lemma inplace_merge_Permutation l1 : ∀ l2,
  RSS.inplace_merge comp l1 l2 ≡ₚ l1 ++ l2.
Proof.
  induction l1 as [|a1 l1 IH1]; intros l2.
  - by rewrite inplace_merge_nil_l.
  - induction l2 as [|a2 l2 IH2].
    + by rewrite inplace_merge_nil_r, app_nil_r.
    + rewrite inplace_merge_cons. destruct (comp a2 a1).
      * rewrite IH2. by rewrite (Permutation_middle (a1 :: l1) l2 a2).
      * by rewrite IH1.
Qed.

Lemma inplace_merge_HdRel a l1 : ∀ l2,
  HdRel notBefore a l1 → HdRel notBefore a l2 →
  HdRel notBefore a (RSS.inplace_merge comp l1 l2).
Proof.
  intros l2 H1 H2. destruct l1 as [|a1 l1].
  - by rewrite inplace_merge_nil_l.
  - destruct l2 as [|a2 l2].
    + by rewrite inplace_merge_nil_r.
    + rewrite inplace_merge_cons. inversion H1; inversion H2; subst.
      destruct (comp a2 a1); by constructor.
Qed.

Lemma inplace_merge_Sorted l1 :
  (∀ a b, comp a b = true → comp b a = false) →
  ∀ l2, Sorted notBefore l1 → Sorted notBefore l2 →
        Sorted notBefore (RSS.inplace_merge comp l1 l2).
Proof.
  intros Hasym. induction l1 as [|a1 l1 IH1]; intros l2 H1 H2.
  - by rewrite inplace_merge_nil_l.
  - induction l2 as [|a2 l2 IH2].
    + by rewrite inplace_merge_nil_r.
    + rewrite inplace_merge_cons.
      apply Sorted_inv in H1 as H1'. destruct H1' as [S1 Hd1].
      apply Sorted_inv in H2 as H2'. destruct H2' as [S2 Hd2].
      destruct (comp a2 a1) eqn:Hc.
      * constructor; [by apply IH2|].
        apply inplace_merge_HdRel; [|done]. constructor. by apply Hasym.
      * constructor; [by apply IH1|].
        apply inplace_merge_HdRel; [done|]. by constructor.
Qed.

End InplaceMerge.

(** ** Folder::articles() and Folder::unreadCount() *)

Lemma to_int_small (z : Z) :
  -2147483648 ≤ z ≤ 2147483647 → RSS.to_int z = z.
Proof. intros Hz. unfold RSS.to_int. rewrite Z.mod_small; lia. Qed.

Lemma sum_nonneg (l : list Z) :
  Forall (λ z, 0 ≤ z) l → 0 ≤ foldr Z.add 0 l.
Proof. induction 1 as [|z l Hz _ IH]; simpl; lia. Qed.

Lemma foldr_add_app (l k : list Z) :
  foldr Z.add 0 (l ++ k) = foldr Z.add 0 l + foldr Z.add 0 k.
Proof. induction l as [|x l IH]; simpl; lia. Qed.

Section FolderQueries.
Context {Item Article Date : Type}.
Context (Article_date : Article → Date).
Context (articleDateRecentThan : Article → Date → bool).
Context (Item_articles : Item → list Article).
Context (Item_unreadCount : Item → Z).

Abbreviation recentThan := (RSS.recentThan Article_date articleDateRecentThan).
Abbreviation articles := (RSS.articles Article_date articleDateRecentThan Item_articles).
Abbreviation unreadCount := (RSS.unreadCount Item_unreadCount).
Abbreviation mostRecentFirst := (Sorted (λ a b, recentThan b a = false)).

(** [begin() + n] splits [news] where the child's articles were appended. *)
Lemma articles_step (news : list Article) (item : Item) :
  (let n := length news in
   let news := news ++ Item_articles item in
   RSS.inplace_merge recentThan (take n news) (drop n news))
  = RSS.inplace_merge recentThan news (Item_articles item).
Proof. cbv zeta. by rewrite take_app_length, drop_app_length. Qed.

Lemma articles_loop_Permutation (l : list Item) : ∀ news,
  fold_left
    (λ news item,
       let n := length news in
       let news := news ++ Item_articles item in
       RSS.inplace_merge recentThan (take n news) (drop n news)) l news
  ≡ₚ news ++ concat (map Item_articles l).
Proof.
  induction l as [|item l IH]; intros news.
  - simpl. by rewrite app_nil_r.
  - cbn [fold_left map concat]. rewrite IH, articles_step.
    by rewrite inplace_merge_Permutation, app_assoc.
Qed.

Lemma articles_loop_Sorted (l : list Item) :
  (∀ a b, recentThan a b = true → recentThan b a = false) →
  Forall (λ item, mostRecentFirst (Item_articles item)) l →
  ∀ news, mostRecentFirst news →
  mostRecentFirst
    (fold_left
       (λ news item,
          let n := length news in
          let news := news ++ Item_articles item in
          RSS.inplace_merge recentThan (take n news) (drop n news)) l news).
Proof.
  intros Hasym Hall. induction Hall as [|item l Hitem _ IH]; intros news Hnews.
  - done.
  - cbn [fold_left]. apply IH. rewrite articles_step.
    by apply inplace_merge_Sorted.
Qed.

(** As long as the counts are not negative and their sum fits an [int],
    the loop adds them up without wrapping. *)
Lemma unreadCount_loop (l : list Item) : ∀ count,
  Forall (λ item, 0 ≤ Item_unreadCount item) l →
  0 ≤ count →
  count + foldr Z.add 0 (map Item_unreadCount l) ≤ 2147483647 →
  fold_left (λ count item, RSS.to_int (count + Item_unreadCount item)) l count
  = count + foldr Z.add 0 (map Item_unreadCount l).
Proof.
  induction l as [|item l IH]; intros count Hall Hcount Hfit; simpl; [lia|].
  apply Forall_cons in Hall as [Hitem Hall]. cbn [map foldr] in Hfit.
  pose proof (sum_nonneg (map Item_unreadCount l)
                (proj2 (Forall_fmap _ _ _) Hall)) as Hrest.
  rewrite to_int_small by lia. rewrite IH by (done || lia). lia.
Qed.

End FolderQueries.

(** X13: when the comparison is asymmetric and every child hands over its
    articles most recent first, [Folder::articles()] returns the articles
    of all children, each as often as the children have it, most recent
    first. *)
Theorem Folder_articles_sorted_merge {Item Article Date : Type}
    (Article_date : Article → Date)
    (articleDateRecentThan : Article → Date → bool)
    (Item_articles : Item → list Article) (f : RSS.Folder) :
  let recentThan := RSS.recentThan Article_date articleDateRecentThan in
  let mostRecentFirst := Sorted (λ a b, recentThan b a = false) in
  let news := RSS.articles Article_date articleDateRecentThan Item_articles f in
  (∀ a b, recentThan a b = true → recentThan b a = false) →
  (∀ item, item ∈ RSS.items f → mostRecentFirst (Item_articles item)) →
  mostRecentFirst news
  ∧ news ≡ₚ concat (map Item_articles (RSS.items f)).
Proof.
  intros recentThan mostRecentFirst news Hasym Hchildren. split.
  - apply articles_loop_Sorted; [done | | constructor].
    by apply Forall_forall.
  - unfold news, RSS.articles. by rewrite articles_loop_Permutation.
Qed.

Lemma Folder_articles_sorted_merge_witness :
  let news := RSS.articles id RSS.Examples.recentThan RSS.Examples.child_articles
                (RSS.Examples.folder [0; 1; 2]%nat) in
  news = [90; 70; 50; 50; 10]
  ∧ Sorted (λ a b, RSS.recentThan id RSS.Examples.recentThan b a = false) news.
Proof.
  split; [reflexivity|].
  apply (Folder_articles_sorted_merge id RSS.Examples.recentThan
           RSS.Examples.child_articles (RSS.Examples.folder [0; 1; 2]%nat)).
  - intros a b. unfold RSS.recentThan, RSS.Examples.recentThan, id.
    rewrite bool_decide_eq_true, bool_decide_eq_false. lia.
  - intros item Hitem. cbn in Hitem.
    repeat (apply elem_of_cons in Hitem as [-> | Hitem];
            [repeat constructor|]).
    by apply elem_of_nil in Hitem.
Defined.

Lemma elem_of_removeOne {A} `{EqDecision A} (x y : A) (l : list A) :
  y ∈ RSS.removeOne x l → y ∈ l.
Proof.
  induction l as [|z l IH]; simpl; [done|].
  destruct (decide (z = x)); [by right|].
  intros [-> | Hin]%elem_of_cons; [left | right; by apply IH].
Qed.

Lemma sum_removeOne {A} `{EqDecision A} (count : A → Z) (x : A) (l : list A) :
  x ∈ l →
  foldr Z.add 0 (map count (RSS.removeOne x l))
  = foldr Z.add 0 (map count l) - count x.
Proof.
  induction l as [|z l IH]; intros Hin.
  - by apply elem_of_nil in Hin.
  - cbn [RSS.removeOne]. destruct (decide (z = x)) as [-> | Hne].
    + simpl. lia.
    + apply elem_of_cons in Hin as [-> | Hin]; [done|].
      specialize (IH Hin). simpl in *. lia.
Qed.

(** X14: as long as the children's counts are not negative and their sum
    fits an [int], [Folder::unreadCount()] is that sum; adding a child adds
    its count (if the new sum still fits), removing a child of the folder
    takes its count away. *)
Theorem Folder_unreadCount_add_remove {Item : Type} `{EqDecision Item}
    (Item_unreadCount : Item → Z) (item : Item) (f : RSS.Folder) :
  let total := foldr Z.add 0 (map Item_unreadCount (RSS.items f)) in
  (∀ child, child ∈ RSS.items f → 0 ≤ Item_unreadCount child) →
  total ≤ 2147483647 →
  RSS.unreadCount Item_unreadCount f = total
  ∧ (0 ≤ Item_unreadCount item →
     total + Item_unreadCount item ≤ 2147483647 →
     RSS.unreadCount Item_unreadCount (RSS.addItem item f).1
     = RSS.unreadCount Item_unreadCount f + Item_unreadCount item)
  ∧ (item ∈ RSS.items f →
     RSS.unreadCount Item_unreadCount (RSS.removeItem item f).1
     = RSS.unreadCount Item_unreadCount f - Item_unreadCount item).
Proof.
  intros total Hnn Hfit. unfold total in *. clear total.
  unfold RSS.unreadCount, RSS.addItem, RSS.removeItem, RSS.items in *.
  cbn [fst RSS.m_items].
  apply Forall_forall in Hnn.
  assert (0 ≤ foldr Z.add 0 (map Item_unreadCount (RSS.m_items f))) as Hpos
    by (apply sum_nonneg; by apply Forall_fmap).
  rewrite (unreadCount_loop _ (RSS.m_items f) 0 Hnn) by lia.
  split; [lia|]. split.
  - intros Hitem Hfit'. rewrite unreadCount_loop.
    + rewrite map_app, foldr_add_app. simpl. lia.
    + apply Forall_app. split; [done|]. by constructor.
    + done.
    + rewrite map_app, foldr_add_app. simpl. lia.
  - intros Hin.
    assert (0 ≤ Item_unreadCount item) as Hitem
      by (by apply (proj1 (Forall_forall _ _) Hnn)).
    rewrite unreadCount_loop.
    + rewrite (sum_removeOne _ _ _ Hin). lia.
    + apply Forall_forall. intros child Hchild.
      apply (proj1 (Forall_forall _ _) Hnn). by eapply elem_of_removeOne.
    + done.
    + rewrite (sum_removeOne _ _ _ Hin). lia.
Qed.

Lemma Folder_unreadCount_add_remove_witness :
  let f := RSS.Examples.folder [0; 1; 0]%nat in
  RSS.unreadCount RSS.Examples.child_unread f = 5
  ∧ RSS.unreadCount RSS.Examples.child_unread (RSS.removeItem 0%nat f).1 = 3.
Proof.
  assert (∀ child, 0 ≤ RSS.Examples.child_unread child) as Hnn.
  { intros [|[|child]]; simpl; lia. }
  destruct (Folder_unreadCount_add_remove RSS.Examples.child_unread 0%nat
              (RSS.Examples.folder [0; 1; 0]%nat))
    as (Htotal & _ & Hremove).
  - intros child _. apply Hnn.
  - vm_compute. discriminate.
  - split; [exact Htotal|].
    rewrite Hremove; [by rewrite Htotal | left].
Defined.

Lemma removeOne_snoc {A} `{EqDecision A} (x : A) (l : list A) :
  x ∉ l → RSS.removeOne x (l ++ [x]) = l.
Proof.
  induction l as [|y l IH]; intros Hnot; simpl.
  - by rewrite decide_True.
  - apply not_elem_of_cons in Hnot as [Hne Hnot].
    rewrite decide_False by done. by rewrite IH.
Qed.

Lemma removeOne_not_elem {A} `{EqDecision A} (x : A) (l : list A) :
  x ∉ l → RSS.removeOne x l = l.
Proof.
  induction l as [|y l IH]; intros Hnot; simpl; [done|].
  apply not_elem_of_cons in Hnot as [Hne Hnot].
  rewrite decide_False by done. by rewrite IH.
Qed.

Lemma elem_of_removeOne_ne {A} `{EqDecision A} (x y : A) (l : list A) :
  y ≠ x → y ∈ RSS.removeOne x l ↔ y ∈ l.
Proof.
  intros Hne. induction l as [|z l IH]; simpl; [done|].
  destruct (decide (z = x)) as [-> | Hz].
  - rewrite elem_of_cons. split; [by right | by intros [? | ?]].
  - rewrite !elem_of_cons, IH. done.
Qed.

Lemma removeOne_sublist {A} `{EqDecision A} (x : A) (l : list A) :
  RSS.removeOne x l `sublist_of` l.
Proof.
  induction l as [|z l IH]; simpl; [done|].
  destruct (decide (z = x)); [by apply sublist_cons | by apply sublist_skip].
Qed.

Lemma removeOne_length {A} `{EqDecision A} (x : A) (l : list A) :
  x ∈ l → S (length (RSS.removeOne x l)) = length l.
Proof.
  induction l as [|z l IH]; intros Hin; simpl.
  - by apply elem_of_nil in Hin.
  - destruct (decide (z = x)) as [-> | Hz]; [done|].
    apply elem_of_cons in Hin as [-> | Hin]; [done|].
    simpl. by rewrite IH.
Qed.

(** X15: removing a child that was just added, and was not in the folder
    before (what [addItem] asserts), gives back the folder as it was. *)
Theorem Folder_removeItem_addItem {Item : Type} `{EqDecision Item}
    (item : Item) (f : RSS.Folder) :
  item ∉ RSS.items f →
  (RSS.removeItem item (RSS.addItem item f).1).1 = f.
Proof.
  intros Hnot. destruct f as [path l]. unfold RSS.items in Hnot.
  unfold RSS.removeItem, RSS.addItem. simpl in *.
  by rewrite removeOne_snoc.
Qed.

Lemma Folder_removeItem_addItem_witness :
  let f := RSS.Examples.folder [0; 1]%nat in
  (RSS.removeItem 2%nat (RSS.addItem 2%nat f).1).1 = f.
Proof.
  apply Folder_removeItem_addItem. cbn.
  intros Hin. repeat (apply elem_of_cons in Hin as [Hin | Hin]; [discriminate|]).
  by apply elem_of_nil in Hin.
Defined.

(** X16: a folder whose children are all different keeps them so: through
    [addItem] of a child it does not have, and through [removeItem], after
    which the removed child is no longer in the folder. *)
Theorem Folder_children_stay_distinct {Item : Type} `{EqDecision Item}
    (item : Item) (f : RSS.Folder) :
  NoDup (RSS.items f) →
  (item ∉ RSS.items f → NoDup (RSS.items (RSS.addItem item f).1))
  ∧ NoDup (RSS.items (RSS.removeItem item f).1)
  ∧ item ∉ RSS.items (RSS.removeItem item f).1.
Proof.
  intros Hnd. unfold RSS.removeItem, RSS.addItem, RSS.items in *. simpl.
  split; [|split].
  - intros Hnot. apply NoDup_app. split; [done|]. split.
    + intros x Hx ->%list_elem_of_singleton. done.
    + apply NoDup_singleton.
  - eapply sublist_NoDup; [done | apply removeOne_sublist].
  - induction Hnd as [|x l Hx Hnd IH]; simpl.
    + apply not_elem_of_nil.
    + destruct (decide (x = item)) as [-> | Hne]; [done|].
      apply not_elem_of_cons. split; [done | exact IH].
Qed.

Lemma Folder_children_stay_distinct_witness :
  let f := RSS.Examples.folder [0; 1; 2]%nat in
  NoDup (RSS.items f) ∧ 1%nat ∉ RSS.items (RSS.removeItem 1%nat f).1.
Proof.
  assert (NoDup (RSS.items (RSS.Examples.folder [0; 1; 2]%nat))) as Hnd.
  { cbn. repeat (apply NoDup_cons; split; [|]); try apply NoDup_nil_2;
      intros Hin;
      repeat (apply elem_of_cons in Hin as [Hin | Hin]; [discriminate|]);
      by apply elem_of_nil in Hin. }
  split; [exact Hnd|].
  apply (Folder_children_stay_distinct 1%nat _ Hnd).
Defined.

(** X17: [removeItem] takes out one occurrence of the child and nothing
    else: the other children stay, a folder without the child is left as it
    is, and a folder with the child has one child less. *)
Theorem Folder_removeItem_only_that_child {Item : Type} `{EqDecision Item}
    (item : Item) (f : RSS.Folder) :
  (∀ other, other ≠ item →
     other ∈ RSS.items (RSS.removeItem item f).1 ↔ other ∈ RSS.items f)
  ∧ (item ∉ RSS.items f → (RSS.removeItem item f).1 = f)
  ∧ (item ∈ RSS.items f →
     S (length (RSS.items (RSS.removeItem item f).1)) = length (RSS.items f)).
Proof.
  destruct f as [path l].
  unfold RSS.removeItem, RSS.items. simpl. split; [|split].
  - intros other Hne. by apply elem_of_removeOne_ne.
  - intros Hnot. by rewrite removeOne_not_elem.
  - apply removeOne_length.
Qed.

Lemma Folder_removeItem_only_that_child_witness :
  let f := RSS.Examples.folder [0; 1; 0]%nat in
  RSS.items (RSS.removeItem 0%nat f).1 = [1; 0]%nat
  ∧ S (length (RSS.items (RSS.removeItem 0%nat f).1)) = length (RSS.items f).
Proof.
  split; [reflexivity|].
  apply Folder_removeItem_only_that_child. left.
Defined.

(** ** Folders of folders *)

(** X19: as long as the feeds' counts are not negative and their sum
    fits an [int], the unread count of an item is the sum of the unread
    counts of the feeds below it, however the folders are nested. *)
Theorem ItemTree_unreadCount_sum {Article : Type} (i : RSS.ItemTree Article) :
  Forall (λ feed, 0 ≤ feed.2) (RSS.feeds i) →
  foldr Z.add 0 (map snd (RSS.feeds i)) ≤ 2147483647 →
  RSS.Item_unreadCount i = foldr Z.add 0 (map snd (RSS.feeds i)).
Proof.
  induction i as [feedArticles feedUnread | path children IH]
    using RSS.ItemTree_ind; intros Hnn Hfit.
  - simpl. lia.
  - cbn [RSS.Item_unreadCount RSS.feeds] in *.
    unfold RSS.unreadCount, RSS.items. cbn [RSS.m_items].
    assert (Forall (λ c, 0 ≤ RSS.Item_unreadCount c) children
            ∧ foldr Z.add 0 (map RSS.Item_unreadCount children)
              = foldr Z.add 0 (map snd (concat (map RSS.feeds children))))
      as [Hchildren Hsum].
    { clear path. induction IH as [|c cs Hc _ IHcs]; [by split|].
      cbn [map concat] in Hnn, Hfit.
      apply Forall_app in Hnn as [Hnc Hncs].
      rewrite map_app, foldr_add_app in Hfit.
      pose proof (sum_nonneg (map snd (RSS.feeds c))
                    (proj2 (Forall_fmap _ _ _) Hnc)) as Hc0.
      pose proof (sum_nonneg (map snd (concat (map RSS.feeds cs)))
                    (proj2 (Forall_fmap _ _ _) Hncs)) as Hcs0.
      destruct (IHcs Hncs ltac:(lia)) as [Hall Hrest].
      specialize (Hc Hnc ltac:(lia)).
      split.
      - constructor; [lia | done].
      - cbn [map concat foldr]. rewrite map_app, foldr_add_app. lia. }
    rewrite unreadCount_loop; [lia | done | done | lia].
Qed.

Lemma ItemTree_unreadCount_sum_witness :
  RSS.Item_unreadCount RSS.Examples.tree = 3.
Proof.
  refine (eq_trans (ItemTree_unreadCount_sum RSS.Examples.tree _ _) _).
  - cbn. repeat constructor; simpl; lia.
  - vm_compute. discriminate.
  - reflexivity.
Defined.

(** X20: when the comparison is asymmetric and every feed keeps its
    articles most recent first, the articles of an item are the articles of
    all feeds below it, most recent first, however the folders are
    nested. *)
Theorem ItemTree_articles_sorted_merge {Article Date : Type}
    (Article_date : Article → Date)
    (articleDateRecentThan : Article → Date → bool)
    (i : RSS.ItemTree Article) :
  let recentThan := RSS.recentThan Article_date articleDateRecentThan in
  let mostRecentFirst := Sorted (λ a b, recentThan b a = false) in
  let news := RSS.Item_articles Article_date articleDateRecentThan i in
  (∀ a b, recentThan a b = true → recentThan b a = false) →
  Forall (λ feed, mostRecentFirst feed.1) (RSS.feeds i) →
  mostRecentFirst news ∧ news ≡ₚ concat (map fst (RSS.feeds i)).
Proof.
  intros recentThan mostRecentFirst news Hasym. unfold news. clear news.
  induction i as [feedArticles feedUnread | path children IH]
    using RSS.ItemTree_ind; intros Hfeeds.
  - cbn [RSS.Item_articles RSS.feeds map concat] in *.
    apply Forall_cons in Hfeeds as [Hfeed _]. by rewrite app_nil_r.
  - cbn [RSS.Item_articles RSS.feeds] in *.
    apply Forall_concat, Forall_fmap in Hfeeds.
    assert (Forall (λ c,
              mostRecentFirst (RSS.Item_articles Article_date articleDateRecentThan c)
              ∧ RSS.Item_articles Article_date articleDateRecentThan c
                ≡ₚ concat (map fst (RSS.feeds c))) children) as Hall.
    { clear -IH Hfeeds. induction IH as [|c cs Hc _ IHcs]; [constructor|].
      apply Forall_cons in Hfeeds as [Hf Hfs].
      constructor; [by apply Hc | by apply IHcs]. }
    clear IH Hfeeds. split.
    + apply articles_loop_Sorted; [done | | constructor].
      eapply Forall_impl; [exact Hall | by intros c [? _]].
    + unfold RSS.articles, RSS.items. cbn [RSS.m_items].
      rewrite articles_loop_Permutation. cbn [app].
      induction Hall as [|c cs [_ Hc] _ IHcs]; [done|].
      cbn [map concat]. by rewrite map_app, concat_app, Hc, IHcs.
Qed.

Lemma ItemTree_articles_sorted_merge_witness :
  let news := RSS.Item_articles id RSS.Examples.recentThan RSS.Examples.tree in
  news = [90; 80; 70; 50; 50; 10]
  ∧ Sorted (λ a b, RSS.recentThan id RSS.Examples.recentThan b a = false) news.
Proof.
  split; [reflexivity|].
  apply (ItemTree_articles_sorted_merge id RSS.Examples.recentThan
           RSS.Examples.tree).
  - intros a b. unfold RSS.recentThan, RSS.Examples.recentThan, id.
    rewrite bool_decide_eq_true, bool_decide_eq_false. lia.
  - cbn. repeat constructor.
Defined.

(** ** Folder::toJsonValue() *)

Section FolderJsonFacts.
Context {Item QJsonValue : Type}.
Context (isUndefined : QJsonValue → bool).
Context (Item_name : Item → Qt.QString).
Context (Item_toJsonValue : Item → bool → QJsonValue).

Lemma QJsonObject_insert_lookup key value jsonObj k :
  RSS.QJsonObject_insert isUndefined key value jsonObj !! k
  = if decide (key = k)
    then (if isUndefined value then None else Some value)
    else jsonObj !! k.
Proof.
  unfold RSS.QJsonObject_insert. destruct (isUndefined value).
  - rewrite lookup_delete. by destruct (decide (key = k)).
  - rewrite lookup_insert. by destruct (decide (key = k)).
Qed.

Lemma toJsonValue_loop withData k (l : list Item) : ∀ jsonObj,
  fold_left
    (λ jsonObj item,
       RSS.QJsonObject_insert isUndefined (Item_name item)
         (Item_toJsonValue item withData) jsonObj) l jsonObj !! k
  = match last (filter (λ item, Item_name item = k) l) with
    | Some item =>
        if isUndefined (Item_toJsonValue item withData) then None
        else Some (Item_toJsonValue item withData)
    | None => jsonObj !! k
    end.
Proof.
  induction l as [|item l IH]; intros jsonObj; [done|].
  cbn [fold_left]. rewrite IH, QJsonObject_insert_lookup.
  destruct (decide (Item_name item = k)) as [Hk | Hk].
  - rewrite filter_cons_True by done.
    destruct (filter (λ item, Item_name item = k) l) as [|x xs] eqn:Hf;
      [done|].
    rewrite (last_cons item (x :: xs)). by destruct (last (x :: xs)).
  - by rewrite filter_cons_False.
Qed.

End FolderJsonFacts.

(** X21: in the object [toJsonValue()] builds, a key holds the JSON of the
    last child of that name, and is absent when no child has the name or
    when that JSON is the undefined value. *)
Theorem Folder_toJsonValue_lookup {Item QJsonValue : Type}
    (isUndefined : QJsonValue → bool) (Item_name : Item → Qt.QString)
    (Item_toJsonValue : Item → bool → QJsonValue)
    (withData : bool) (f : RSS.Folder) (key : Qt.QString) :
  RSS.toJsonValue isUndefined Item_name Item_toJsonValue withData f !! key
  = match last (filter (λ item, Item_name item = key) (RSS.items f)) with
    | Some item =>
        if isUndefined (Item_toJsonValue item withData) then None
        else Some (Item_toJsonValue item withData)
    | None => None
    end.
Proof.
  unfold RSS.toJsonValue. rewrite toJsonValue_loop.
  by destruct (last _).
Qed.

(** X22: when the children have different names and none of them gives
    the undefined value, the object has one entry per child: the child's
    JSON under the child's name. *)
Theorem Folder_toJsonValue_one_entry_per_child {Item QJsonValue : Type}
    (isUndefined : QJsonValue → bool) (Item_name : Item → Qt.QString)
    (Item_toJsonValue : Item → bool → QJsonValue)
    (withData : bool) (f : RSS.Folder) :
  NoDup (map Item_name (RSS.items f)) →
  (∀ item, item ∈ RSS.items f →
           isUndefined (Item_toJsonValue item withData) = false) →
  let jsonObj :=
    RSS.toJsonValue isUndefined Item_name Item_toJsonValue withData f in
  (∀ item, item ∈ RSS.items f →
           jsonObj !! Item_name item = Some (Item_toJsonValue item withData))
  ∧ (∀ key, is_Some (jsonObj !! key)
            ↔ ∃ item, item ∈ RSS.items f ∧ Item_name item = key).
Proof.
  intros Hnd Hdef jsonObj.
  assert (∀ item, item ∈ RSS.items f →
            last (filter (λ x, Item_name x = Item_name item) (RSS.items f))
            = Some item) as Hlast.
  { intros item Hin. clear Hdef jsonObj.
    induction (RSS.items f) as [|x l IH]; [by apply elem_of_nil in Hin|].
    cbn [map] in Hnd. apply NoDup_cons in Hnd as [Hx Hnd].
    apply elem_of_cons in Hin as [-> | Hin].
    - rewrite filter_cons_True by done.
      assert (filter (λ y, Item_name y = Item_name x) l = []) as ->; [|done].
      destruct (filter (λ y, Item_name y = Item_name x) l) as [|y ys] eqn:Hf;
        [done|].
      assert (y ∈ filter (λ y, Item_name y = Item_name x) l) as Hy
        by (rewrite Hf; left).
      apply list_elem_of_filter in Hy as [Hname Hy].
      exfalso. apply Hx. rewrite <- Hname. apply list_elem_of_fmap. eauto.
    - rewrite filter_cons_False; [by apply IH|].
      intros Hname. apply Hx. rewrite Hname. apply list_elem_of_fmap. eauto. }
  unfold jsonObj, RSS.toJsonValue. split.
  - intros item Hin.
    rewrite toJsonValue_loop, (Hlast item Hin), (Hdef item Hin). done.
  - intros key. rewrite toJsonValue_loop. split.
    + destruct (last _) as [item|] eqn:Hl.
      * intros _.
        apply last_Some_elem_of, list_elem_of_filter in Hl as [Hname Hin]. eauto.
      * rewrite lookup_empty. by intros [? ?].
    + intros (item & Hin & <-). rewrite (Hlast item Hin), (Hdef item Hin). eauto.
Qed.

Lemma Folder_toJsonValue_one_entry_per_child_witness :
  let jsonObj :=
    RSS.toJsonValue (λ value, bool_decide (value = 0))
      RSS.Examples.child_name RSS.Examples.child_json true
      (RSS.Examples.folder [0; 1]%nat) in
  jsonObj !! RSS.Examples.child_name 1 = Some 11.
Proof.
  apply (Folder_toJsonValue_one_entry_per_child
           (λ value, bool_decide (value = 0))
           RSS.Examples.child_name RSS.Examples.child_json true
           (RSS.Examples.folder [0; 1]%nat)).
  - cbn. apply NoDup_cons. split; [|apply NoDup_singleton].
    intros Hin. apply list_elem_of_singleton in Hin. discriminate.
  - intros item Hin. cbn in Hin.
    repeat (apply elem_of_cons in Hin as [-> | Hin]; [reflexivity|]).
    by apply elem_of_nil in Hin.
  - right. left.
Defined.

(** * The row and its endpoints *)

(** X23: [messages()] shows nothing that the endpoints do not show: every
    text of it is the trimmed [Endpoint::message()] of some endpoint,
    provided the empty text trims to the empty text and no endpoint has a
    message made of white space only. *)
Theorem messages_shown_by_some_endpoint `{Q : Qt.Api} (t : TrackerEntry)
    (x : Qt.QString) :
  Qt.trimmed (Qt.fromStdString EmptyString) = [] →
  (∀ e, e ∈ lt.endpoints (nativeEntry t) →
        Spec.trimmed_field lt.message e = [] → lt.message e = EmptyString) →
  x ∈ messages t →
  ∃ e, e ∈ endpoints t ∧ x = Qt.trimmed (Endpoint_message e).
Proof.
  intros Hempty Hblank. rewrite messages_two_passes.
  assert (∀ e, e ∈ lt.endpoints (nativeEntry t) → Build_Endpoint e ∈ endpoints t)
    as Hwrap.
  { intros e He. unfold endpoints. apply list_elem_of_fmap. eauto. }
  case_decide as Hcase; intros Hx;
    apply elem_of_collect in Hx as [Hne (e & He & <-)];
    exists (Build_Endpoint e); (split; [by apply Hwrap|]);
    unfold Endpoint_message, Spec.trimmed_field in *; cbn [m_nativeEndpoint].
  - destruct Hcase as [Hnil Hs].
    rewrite (Hblank e He) by (by apply (collect_nil_iff lt.message t)).
    rewrite bool_decide_eq_true_2 by done. cbn [negb].
    apply status_NotWorking_failing in Hs as [_ Hall].
    apply (proj1 (Forall_forall _ _)) with (x := Build_Endpoint e) in Hall;
      [|by apply Hwrap].
    unfold Spec.isFailing, Spec.isFunctioning in Hall. cbn in Hall.
    apply andb_true_iff in Hall as [Hw _]. by rewrite Hw.
  - rewrite bool_decide_eq_false_2; [done|].
    intros Hmsg. apply Hne. by rewrite Hmsg.
Qed.

Lemma messages_shown_by_some_endpoint_witness :
  let t := Examples.tracker true
             [Examples.failing "timeout"; Examples.failing " refused"] in
  Qt5.latin1 "refused" ∈ @messages Qt5.api t
  ∧ ∃ e, e ∈ endpoints t
         ∧ Qt5.latin1 "refused" = Qt5.trimmed (@Endpoint_message Qt5.api e).
Proof.
  assert (Qt5.latin1 "refused"
          ∈ @messages Qt5.api
              (Examples.tracker true
                 [Examples.failing "timeout"; Examples.failing " refused"]))
    as Hin by (vm_compute; right; left).
  split; [exact Hin|].
  apply (@messages_shown_by_some_endpoint Qt5.api); [reflexivity | | exact Hin].
  intros e He _. cbn in He.
  repeat (apply elem_of_cons in He as [-> | He]; [reflexivity|]).
  by apply elem_of_nil in He.
Defined.
